(** * ctxd: indexing and retrieval pipeline, shallow embedding

    The Python sources under [src/ctxd] are embedded as Rocq functions:
    - Python [int] is [Z]; Python [float] is idealised as an exact
      rational [Q] (comparisons and the division [1/(1+d)] are exact);
    - Python [str] is [list ascii]: a character is a code point below 256;
    - [Optional[T]] is [option T]; raised exceptions are an [error] value;
    - [while] loops take fuel, and the theorems show how much is enough. *)

From Stdlib Require Import ZArith QArith String Ascii List Bool Lia.
From Stdlib Require Import Sorted Permutation.
From Stdlib Require Import Lqa.
Import ListNotations.

Open Scope Z_scope.

(** ** Python string primitives *)

Module PyStr.

Definition str := list ascii.

(** A literal: [L "abc"] is the Python string ["abc"]. *)
Definition L (s : string) : str := list_ascii_of_string s.

Definition NL : ascii := ascii_of_nat 10.
Definition SP : ascii := ascii_of_nat 32.

(** [str.isspace] for one character (code points below 256):
    TAB..CR, FS..US, SPACE, NEL, NBSP. *)
Definition is_space (c : ascii) : bool :=
  let n := nat_of_ascii c in
  ((9 <=? n)%nat && (n <=? 13)%nat)
  || ((28 <=? n)%nat && (n <=? 32)%nat)
  || (n =? 133)%nat || (n =? 160)%nat.

Fixpoint lstrip (s : str) : str :=
  match s with
  | c :: s' => if is_space c then lstrip s' else s
  | [] => []
  end.

Definition rstrip (s : str) : str := rev (lstrip (rev s)).

(** [s.strip()] *)
Definition strip (s : str) : str := rstrip (lstrip s).

(** Python truthiness of a string: [bool(s)]. *)
Definition truthy (s : str) : bool :=
  match s with [] => false | _ => true end.

Fixpoint starts_with (p s : str) : bool :=
  match p, s with
  | [], _ => true
  | a :: p', b :: s' => Ascii.eqb a b && starts_with p' s'
  | _ :: _, [] => false
  end.

(** [sep in s] for a non-empty [sep]. *)
Fixpoint contains (sep s : str) : bool :=
  starts_with sep s ||
  match s with
  | [] => false
  | _ :: s' => contains sep s'
  end.

(** [s.split(sep)] for a non-empty [sep]: leftmost non-overlapping
    occurrences; [skip] counts the characters of a matched separator still
    to be dropped, [cur] is the reversed piece being collected. *)
Fixpoint split_aux (sep s : str) (skip : nat) (cur : str) : list str :=
  match s with
  | [] => [rev cur]
  | c :: s' =>
      match skip with
      | S k => split_aux sep s' k cur
      | O =>
          if starts_with sep s
          then rev cur :: split_aux sep s' (length sep - 1) []
          else split_aux sep s' 0 (c :: cur)
      end
  end.

Definition split_on (sep s : str) : list str := split_aux sep s 0 [].

(** [s.split()] with no argument: maximal runs of non-whitespace. *)
Fixpoint split_ws_aux (s : str) (cur : str) : list str :=
  match s with
  | [] => match cur with [] => [] | _ => [rev cur] end
  | c :: s' =>
      if is_space c
      then match cur with
           | [] => split_ws_aux s' []
           | _ => rev cur :: split_ws_aux s' []
           end
      else split_ws_aux s' (c :: cur)
  end.

Definition split_ws (s : str) : list str := split_ws_aux s [].

(** [s.count(c)] for a one-character needle. *)
Fixpoint count_char (c : ascii) (s : str) : Z :=
  match s with
  | [] => 0
  | a :: s' => (if Ascii.eqb a c then 1 else 0) + count_char c s'
  end.

(** [sep.join(parts)] *)
Fixpoint join (sep : str) (parts : list str) : str :=
  match parts with
  | [] => []
  | [p] => p
  | p :: rest => p ++ sep ++ join sep rest
  end.

(** [len(l)] *)
Definition len {A} (l : list A) : Z := Z.of_nat (length l).

(** [l[a:b]] with Python's treatment of negative and out-of-range bounds. *)
Definition norm_index (n : Z) (i : Z) : Z :=
  if i <? 0 then Z.max (i + n) 0 else Z.min i n.

Definition py_slice {A} (l : list A) (a b : Z) : list A :=
  let a' := norm_index (len l) a in
  let b' := norm_index (len l) b in
  firstn (Z.to_nat (b' - a')) (skipn (Z.to_nat a') l).

Definition str_eqb (a b : str) : bool :=
  if list_eq_dec ascii_dec a b then true else false.

(** A word of [s.split()]: non-empty and free of whitespace. *)
Definition no_space (w : str) : Prop :=
  forallb (fun c => negb (is_space c)) w = true.

Definition word (w : str) : Prop := w <> [] /\ no_space w.

(** Only whitespace (or nothing): what [strip] reduces to the empty string. *)
Definition blank (s : str) : Prop := forallb is_space s = true.

End PyStr.
Import PyStr.

(** ** chunkers/fallback.py *)

Module Fallback.

Record Metadata := mkMeta {
  start_line : Z;
  end_line : Z;
  chunk_type : str;
  name : option str
}.

Definition chunk_data : Type := str * Metadata.

Section Chunker.

(** [FallbackChunker.__init__] *)
Variable max_chunk_size : Z.
Variable chunk_overlap : Z.

(** The [while i < len(words)] loop of [_split_large_paragraph]; [None] is
    fuel exhausted. *)
Fixpoint split_loop (fuel : nat) (words : list str) (i current_line : Z)
  : option (list chunk_data) :=
  if i <? len words then
    match fuel with
    | O => None
    | S fuel' =>
        let chunk_words := py_slice words i (i + max_chunk_size) in
        let chunk_text := join [SP] chunk_words in
        let line_count := count_char NL chunk_text + 1 in
        let c := (chunk_text,
                  mkMeta current_line (current_line + line_count - 1)
                         (L "paragraph") None) in
        option_map (cons c)
          (split_loop fuel' words (i + (max_chunk_size - chunk_overlap))
                      (current_line + line_count))
    end
  else Some [].

Definition _split_large_paragraph (fuel : nat) (paragraph : str)
  (start_line : Z) : option (list chunk_data) :=
  split_loop fuel (split_ws paragraph) 0 start_line.

Definition _split_into_paragraphs (content : str) : list str :=
  map strip (filter (fun p => truthy (strip p))
                    (split_on [NL; NL] content)).

(** The [for para in paragraphs] loop of [chunk]. *)
Fixpoint chunk_paragraphs (fuel : nat) (paragraphs : list str)
  (current_line : Z) : option (list chunk_data) :=
  match paragraphs with
  | [] => Some []
  | para :: rest =>
      if negb (truthy (strip para))
      then chunk_paragraphs fuel rest current_line
      else
        let para_lines := count_char NL para + 1 in
        let word_count := len (split_ws para) in
        let here :=
          if word_count <=? max_chunk_size
          then Some [(para, mkMeta current_line
                                   (current_line + para_lines - 1)
                                   (L "paragraph") None)]
          else _split_large_paragraph fuel para current_line in
        match here, chunk_paragraphs fuel rest (current_line + para_lines) with
        | Some cs, Some more => Some (cs ++ more)
        | _, _ => None
        end
  end.

Definition chunk (fuel : nat) (content : str) : option (list chunk_data) :=
  if negb (truthy (strip content)) then Some []
  else
    let lines := split_on [NL] content in
    let paragraphs := _split_into_paragraphs content in
    match paragraphs with
    | [] => Some [(content, mkMeta 1 (len lines) (L "block") None)]
    | _ => chunk_paragraphs fuel paragraphs 1
    end.

End Chunker.

(** The result claimed for content without a blank-line separator: one
    [block] chunk holding the whole input. *)
Definition single_block_spec (content : str)
  (r : option (list chunk_data)) : Prop :=
  r = Some [(content,
             mkMeta 1 (len (split_on [NL] content)) (L "block") None)].

(** The shape of every chunk the fallback chunker emits. *)
Definition paragraph_chunk (c : chunk_data) : Prop :=
  chunk_type (snd c) = L "paragraph" /\ name (snd c) = None /\
  1 <= start_line (snd c) <= end_line (snd c).

(** The property claimed of the window loop for one paragraph: it returns,
    window [k] is [words[k*step : k*step + max]] with
    [step = max_chunk_size - chunk_overlap], no window has more than
    [max_chunk_size] words, and every word lies in some window. *)
Definition window_spec (max_chunk_size chunk_overlap : Z) (fuel : nat)
  (paragraph : str) : Prop :=
  let words := split_ws paragraph in
  let step := max_chunk_size - chunk_overlap in
  exists chunks,
    _split_large_paragraph max_chunk_size chunk_overlap fuel paragraph 1
      = Some chunks /\
    let wins := map (fun c => split_ws (fst c)) chunks in
    (forall k win, nth_error wins k = Some win ->
       win = py_slice words (Z.of_nat k * step)
                      (Z.of_nat k * step + max_chunk_size)) /\
    Forall (fun win => len win <= max_chunk_size) wins /\
    (forall j w, nth_error words j = Some w ->
       exists k win, nth_error wins k = Some win /\
         Z.of_nat k * step <= Z.of_nat j /\
         nth_error win (Z.to_nat (Z.of_nat j - Z.of_nat k * step)) = Some w).

End Fallback.

(** ** chunkers/markdown.py *)

Module Markdown.

Import Fallback.

Definition HASH : ascii := ascii_of_nat 35.

Fixpoint take_while (f : ascii -> bool) (s : str) : str :=
  match s with
  | c :: s' => if f c then c :: take_while f s' else []
  | [] => []
  end.

Fixpoint drop_while (f : ascii -> bool) (s : str) : str :=
  match s with
  | c :: s' => if f c then drop_while f s' else s
  | [] => []
  end.

(** [re.match(r'^(#{1,6})\s+(.+)$', line)] on a line that holds no newline
    (the lines come from [content.split("\n")]); the result is [group(2)].
    Both repetitions are greedy and backtrack: more than six hashes leave a
    hash where whitespace is needed, and when only whitespace follows the
    hashes the last whitespace character is given back to [(.+)]. *)
Definition header_match (line : str) : option str :=
  let hashes := take_while (Ascii.eqb HASH) line in
  let rest := drop_while (Ascii.eqb HASH) line in
  let k := length hashes in
  if ((1 <=? k)%nat && (k <=? 6)%nat)%bool then
    let ws := take_while is_space rest in
    let tail := drop_while is_space rest in
    match ws, tail with
    | [], _ => None
    | _ :: _, _ :: _ => Some tail
    | [_], [] => None
    | _ :: _ :: _, [] => Some [last ws SP]
    end
  else None.

Definition _make_chunk (lines : list str) (start end_ : Z)
  (name : option str) : chunk_data :=
  (join [NL] lines, mkMeta start end_ (L "section") name).

(** The local variables of [chunk] that the loop over lines updates. *)
Record scan_state := mkScan {
  chunks : list chunk_data;
  current_chunk : list str;
  current_start : Z;
  header_name : option str
}.

Definition non_empty {A} (l : list A) : bool :=
  match l with [] => false | _ => true end.

(** One iteration of [for i, line in enumerate(lines, 1)]. *)
Definition scan_step (i : Z) (line : str) (s : scan_state) : scan_state :=
  match header_match line with
  | Some g2 =>
      let chunks' :=
        if non_empty (current_chunk s)
        then chunks s ++ [_make_chunk (current_chunk s) (current_start s)
                                      (i - 1) (header_name s)]
        else chunks s in
      mkScan chunks' [line] i (Some (strip g2))
  | None =>
      mkScan (chunks s) (current_chunk s ++ [line]) (current_start s)
             (header_name s)
  end.

Fixpoint scan (lines : list str) (i : Z) (s : scan_state) : scan_state :=
  match lines with
  | [] => s
  | line :: rest => scan rest (i + 1) (scan_step i line s)
  end.

Definition chunk (content : str) : list chunk_data :=
  if negb (truthy (strip content)) then []
  else
    let lines := split_on [NL] content in
    let s := scan lines 1 (mkScan [] [] 1 None) in
    let chunks :=
      if non_empty (current_chunk s)
      then chunks s ++ [_make_chunk (current_chunk s) (current_start s)
                                    (len lines) (header_name s)]
      else chunks s in
    match chunks with
    | [] => [(content, mkMeta 1 (len lines) (L "block") None)]
    | _ => chunks
    end.

Definition is_header (line : str) : bool :=
  match header_match line with Some _ => true | None => false end.

(** The chunks cover the lines [from .. to] one after the other: each
    starts where the one before ended, and none is empty. *)
Fixpoint tiles (from : Z) (cs : list chunk_data) (to : Z) : Prop :=
  match cs with
  | [] => from = to + 1
  | c :: rest =>
      start_line (snd c) = from /\ from <= end_line (snd c) /\
      tiles (end_line (snd c) + 1) rest to
  end.

Definition section_chunk (c : chunk_data) : Prop :=
  chunk_type (snd c) = L "section".

(** What the loop over lines keeps true after the lines [pre]. *)
Definition scan_inv (pre : list str) (s : scan_state) : Prop :=
  exists groups,
    map fst (chunks s) = map (join [NL]) groups /\
    Forall (fun g => g <> []) groups /\
    concat groups ++ current_chunk s = pre /\
    tiles 1 (chunks s) (current_start s - 1) /\
    current_start s = 1 + len (concat groups) /\
    Forall section_chunk (chunks s) /\
    (pre <> [] -> current_chunk s <> []).

(** The result claimed for content without header lines: the whole file
    as one [block] chunk. *)
Definition no_header_block_spec (content : str) : Prop :=
  chunk content =
  [(content, mkMeta 1 (len (split_on [NL] content)) (L "block") None)].

End Markdown.

(** ** models.py *)

Module Models.

(** Exceptions that the modelled code raises. [ValueError] is the one the
    code raises itself with [raise ValueError(...)]; [ValidationError] is
    pydantic's, raised when a model's field constraint fails. *)
Inductive error :=
| ValueError (msg : str)
| ValidationError
| ZeroDivisionError
| TypeError
| RuntimeError.

Inductive result (A : Type) :=
| Ok (a : A)
| Err (e : error).
Arguments Ok {A} a.
Arguments Err {A} e.

Definition bind {A B} (r : result A) (k : A -> result B) : result B :=
  match r with
  | Ok a => k a
  | Err e => Err e
  end.

Notation "x <- c ;; k" := (bind c (fun x => k))
  (at level 61, c at next level, right associativity).

(** [class CodeChunk(LanceModel)] *)
Record CodeChunk := mkChunk {
  vector : list Q;
  text : str;
  path : str;
  start_line : Z;
  end_line : Z;
  chunk_type : str;
  name : option str;
  language : str;
  file_hash : str;
  indexed_at : Q;
  branch : option str
}.

(** The field constraints of [CodeChunk]: [Vector(384)], and [ge=1] on both
    line numbers. *)
Definition chunk_fields_ok (c : CodeChunk) : bool :=
  (length (vector c) =? 384)%nat && (1 <=? start_line c) && (1 <=? end_line c).

(** Constructing a [CodeChunk] from keyword fields validates them. *)
Definition CodeChunk_new (fields : CodeChunk) : result CodeChunk :=
  if chunk_fields_ok fields then Ok fields else Err ValidationError.

(** [class SearchResult(BaseModel)] *)
Record SearchResult := mkResult {
  chunk : CodeChunk;
  score : Q
}.

(** [score: float = Field(ge=0, le=1)] *)
Definition score_ok (s : Q) : bool := Qle_bool 0 s && Qle_bool s 1.

(** [SearchResult(chunk=..., score=...)] *)
Definition SearchResult_new (c : CodeChunk) (s : Q) : result SearchResult :=
  if score_ok s then Ok (mkResult c s) else Err ValidationError.

(** [class IndexStats(BaseModel)]; [languages] is a dict, kept as an
    association list whose order carries no meaning. *)
Record IndexStats := mkStats {
  total_files : Z;
  total_chunks : Z;
  total_size_bytes : Z;
  languages : list (str * Z);
  last_indexed : option Q
}.

(** [IndexStats()] *)
Definition IndexStats_default : IndexStats := mkStats 0 0 0 [] None.

End Models.

(** ** store.py *)

Module Store.

Import Models.

(** A raw row as the engine's [to_list()] gives it: the chunk's columns and
    the internal [_distance] / [_score] columns when the engine sets them. *)
Record Row := mkRow {
  row_fields : CodeChunk;
  _distance : option Q;
  _score : option Q
}.

Inductive score_type := distance | fts | hybrid | other_score_type.

(** The arguments of [search] that reach the engine and the cache. *)
Record Query := mkQuery {
  query_text : option str;
  query_vector : option (list Q);
  limit : Z;
  fts_weight : Q;
  file_filter : option str;
  branch_filter : option str;
  extensions : option (list str);
  directories : option (list str);
  chunk_types : option (list str);
  languages : option (list str);
  min_score : Q
}.

(** The key [lru_cache] builds from the arguments of [_execute_search_impl]:
    the query and the resolved mode ([cache_key] is a digest of the same
    values). *)
Definition cache_key : Type := Query * str.

Record VectorStore := mkStore {
  cache_enabled : bool;
  cache_size : Z;
  table : list CodeChunk;
  cache : list (cache_key * list SearchResult)
}.

Definition non_nil {A} (l : list A) : bool :=
  match l with [] => false | _ => true end.

Definition opt_truthy {A} (o : option (list A)) : bool :=
  match o with Some (_ :: _) => true | _ => false end.

Definition is_none {A} (o : option A) : bool :=
  match o with None => true | Some _ => false end.

Definition get {A} (o : option A) (d : A) : A :=
  match o with Some a => a | None => d end.

Definition set_cache (st : VectorStore) c : VectorStore :=
  mkStore (cache_enabled st) (cache_size st) (table st) c.

Definition set_table (st : VectorStore) t : VectorStore :=
  mkStore (cache_enabled st) (cache_size st) t (cache st).

(** [clear_cache] *)
Definition clear_cache (st : VectorStore) : VectorStore :=
  if cache_enabled st then set_cache st [] else st.

(** [add_chunks] *)
Definition add_chunks (st : VectorStore) (chunks : list CodeChunk)
  : VectorStore :=
  match chunks with
  | [] => st
  | _ => clear_cache (set_table st (table st ++ chunks))
  end.

Definition path_is (p : str) (c : CodeChunk) : bool := str_eqb (path c) p.

Definition opt_str_eqb (a b : option str) : bool :=
  match a, b with
  | Some x, Some y => str_eqb x y
  | None, None => true
  | _, _ => false
  end.

Definition branch_is (b : str) (c : CodeChunk) : bool :=
  opt_str_eqb (branch c) (Some b).

Definition count_rows (st : VectorStore) : Z := len (table st).

(** [delete_by_path]: the new store and the number of rows deleted. *)
Definition delete_by_path (st : VectorStore) (p : str) : VectorStore * Z :=
  let count_before := count_rows st in
  let st' := set_table st (filter (fun c => negb (path_is p c)) (table st)) in
  let count_after := count_rows st' in
  (st', count_before - count_after).

(** [delete_by_branch] *)
Definition delete_by_branch (st : VectorStore) (b : str) : VectorStore * Z :=
  let count_before := count_rows st in
  let st' := set_table st (filter (fun c => negb (branch_is b c)) (table st)) in
  let count_after := count_rows st' in
  (st', count_before - count_after).


(** [_post_filter] *)
Definition _post_filter (results : list SearchResult) (min_score : Q)
  : list SearchResult :=
  filter (fun r => Qle_bool min_score (score r)) results.

(** The body of the loop of [_convert_results] for one row; dividing by a
    zero float raises. *)
Definition convert_row (st : score_type) (row : Row) : result SearchResult :=
  score <-
    match st with
    | distance =>
        let distance := get (_distance row) 0%Q in
        if Qeq_bool (1 + distance) 0 then Err ZeroDivisionError
        else Ok (1 / (1 + distance))%Q
    | fts => Ok (get (_score row) 0%Q)
    | hybrid => Ok (get (_score row) 0%Q)
    | other_score_type => Ok 0%Q
    end ;;
  c <- CodeChunk_new (row_fields row) ;;
  SearchResult_new c score.

(** [_convert_results] *)
Fixpoint _convert_results (results : list Row) (st : score_type)
  : result (list SearchResult) :=
  match results with
  | [] => Ok []
  | row :: rest =>
      r <- convert_row st row ;;
      rs <- _convert_results rest st ;;
      Ok (r :: rs)
  end.

Definition sql_or_like (pre post : str) (items : list str) : str :=
  L "(" ++ join (L " OR ")
             (map (fun x => L "path LIKE '" ++ pre ++ x ++ post ++ L "'") items)
        ++ L ")".

Definition sql_in (col : str) (items : list str) : str :=
  col ++ L " IN (" ++
  join (L ", ") (map (fun x => L "'" ++ x ++ L "'") items) ++ L ")".

Definition when {A} (o : option A) (ok : A -> bool) (f : A -> str)
  : list str :=
  match o with
  | Some a => if ok a then [f a] else []
  | None => []
  end.

(** [_apply_filters]: the combined [WHERE] condition, [None] when no filter
    is active. *)
Definition _apply_filters (q : Query) : option str :=
  let conditions :=
    when (extensions q) non_nil (sql_or_like (L "%") [])
    ++ when (directories q) non_nil (sql_or_like [] (L "%"))
    ++ when (chunk_types q) non_nil (sql_in (L "chunk_type"))
    ++ when (languages q) non_nil (sql_in (L "language"))
    ++ when (file_filter q) truthy
         (fun f => L "path LIKE '%" ++ f ++ L "%'")
    ++ when (branch_filter q) truthy
         (fun b => L "branch = '" ++ b ++ L "'") in
  match conditions with
  | [] => None
  | _ => Some (join (L " AND ") conditions)
  end.

(** Equality of two cache keys, as [lru_cache] compares argument tuples. *)
Definition opt_eqb {A} (eqb : A -> A -> bool) (a b : option A) : bool :=
  match a, b with
  | Some x, Some y => eqb x y
  | None, None => true
  | _, _ => false
  end.

Fixpoint list_eqb {A} (eqb : A -> A -> bool) (a b : list A) : bool :=
  match a, b with
  | [], [] => true
  | x :: a', y :: b' => eqb x y && list_eqb eqb a' b'
  | _, _ => false
  end.

Definition query_eqb (a b : Query) : bool :=
  opt_eqb str_eqb (query_text a) (query_text b)
  && opt_eqb (list_eqb Qeq_bool) (query_vector a) (query_vector b)
  && (limit a =? limit b)
  && Qeq_bool (fts_weight a) (fts_weight b)
  && opt_eqb str_eqb (file_filter a) (file_filter b)
  && opt_eqb str_eqb (branch_filter a) (branch_filter b)
  && opt_eqb (list_eqb str_eqb) (extensions a) (extensions b)
  && opt_eqb (list_eqb str_eqb) (directories a) (directories b)
  && opt_eqb (list_eqb str_eqb) (chunk_types a) (chunk_types b)
  && opt_eqb (list_eqb str_eqb) (languages a) (languages b)
  && Qeq_bool (min_score a) (min_score b).

Definition key_eqb (a b : cache_key) : bool :=
  query_eqb (fst a) (fst b) && str_eqb (snd a) (snd b).

(** A Python [list] argument cannot be hashed: [lru_cache] raises
    [TypeError] before the wrapped function runs. *)
Definition hashable (q : Query) : bool :=
  is_none (query_vector q) && is_none (extensions q)
  && is_none (directories q) && is_none (chunk_types q)
  && is_none (languages q).

(** [functools.lru_cache(maxsize)]: entries most recently used first. *)
Fixpoint lru_lookup (k : cache_key) (c : list (cache_key * list SearchResult))
  : option (list SearchResult) :=
  match c with
  | [] => None
  | (k', v) :: rest => if key_eqb k k' then Some v else lru_lookup k rest
  end.

Definition lru_touch (k : cache_key) (v : list SearchResult)
  (c : list (cache_key * list SearchResult)) :=
  (k, v) :: filter (fun e => negb (key_eqb k (fst e))) c.

Definition lru_insert (maxsize : Z) (k : cache_key) (v : list SearchResult)
  (c : list (cache_key * list SearchResult)) :=
  firstn (Z.to_nat maxsize) ((k, v) :: c).

Section Search.

(** The storage engine behind [self.table.search(...)]: given the rows, the
    query, the limit and the [WHERE] condition it returns raw rows. The
    keyword and hybrid engines return [None] when they raise [ValueError]
    or [AttributeError] (no keyword index). *)
Variable vector_engine : list CodeChunk -> list Q -> Z -> option str -> list Row.
Variable fts_engine : list CodeChunk -> str -> Z -> option str -> option (list Row).
Variable hybrid_engine : list CodeChunk -> str -> Z -> option str -> option (list Row).

(** What [except (ValueError, AttributeError)] catches; pydantic's
    [ValidationError] derives from [ValueError]. *)
Definition is_ValueError (e : error) : bool :=
  match e with
  | ValueError _ | ValidationError => true
  | _ => false
  end.

(** [_search_vector] *)
Definition _search_vector (st : VectorStore) (q : Query) (v : list Q)
  : result (list SearchResult) :=
  _convert_results (vector_engine (table st) v (limit q) (_apply_filters q))
                   distance.

(** [_search_fts] *)
Definition _search_fts (st : VectorStore) (q : Query) (t : str)
  : result (list SearchResult) :=
  match fts_engine (table st) t (limit q) (_apply_filters q) with
  | None => Ok []
  | Some rows =>
      match _convert_results rows fts with
      | Ok rs => Ok rs
      | Err e => if is_ValueError e then Ok [] else Err e
      end
  end.

(** [_search_hybrid] *)
Definition _search_hybrid (st : VectorStore) (q : Query) (t : str)
  : result (list SearchResult) :=
  let fallback :=
    match query_vector q with
    | Some (x :: v) => _search_vector st q (x :: v)
    | _ => Ok []
    end in
  match hybrid_engine (table st) t (limit q) (_apply_filters q) with
  | None => fallback
  | Some rows =>
      match _convert_results rows hybrid with
      | Ok rs => Ok rs
      | Err e => if is_ValueError e then fallback else Err e
      end
  end.

(** The [if mode == ... elif ... else raise] dispatch shared by [search]
    and [_execute_search_impl]; [tail] is the end of the message. The two
    [RuntimeError] branches are not reached from [search], which validates
    first. *)
Definition dispatch (st : VectorStore) (q : Query) (mode tail : str)
  : result (list SearchResult) :=
  if str_eqb mode (L "vector") then
    match query_vector q with
    | Some v => _search_vector st q v
    | None => Err RuntimeError
    end
  else if str_eqb mode (L "fts") then
    match query_text q with
    | Some t => _search_fts st q t
    | None => Err RuntimeError
    end
  else if str_eqb mode (L "hybrid") then
    match query_text q with
    | Some t => _search_hybrid st q t
    | None => Err RuntimeError
    end
  else Err (ValueError (L "Invalid search mode: " ++ mode ++ tail)).

(** [_execute_search_impl] *)
Definition _execute_search_impl (st : VectorStore) (q : Query) (mode : str)
  : result (list SearchResult) :=
  results <- dispatch st q mode [] ;;
  Ok (_post_filter results (min_score q)).

(** Mode auto-detection at the head of [search]. *)
Definition resolve_mode (mode : option str) (q : Query) : result str :=
  match mode with
  | Some m => Ok m
  | None =>
      if opt_truthy (query_text q) && opt_truthy (query_vector q)
      then Ok (L "hybrid")
      else if opt_truthy (query_vector q) then Ok (L "vector")
      else if opt_truthy (query_text q) then Ok (L "fts")
      else Err (ValueError (L "Either query_text or query_vector must be provided"))
  end.

(** Input validation of [search] for the resolved mode. *)
Definition validate (mode : str) (q : Query) : result unit :=
  if str_eqb mode (L "vector") && is_none (query_vector q)
  then Err (ValueError (L "query_vector required for vector mode"))
  else if (str_eqb mode (L "fts") || str_eqb mode (L "hybrid"))
          && is_none (query_text q)
  then Err (ValueError (L "query_text required for fts/hybrid mode"))
  else Ok tt.

(** The call [self._cached_search(...)]: an unhashable argument raises
    [TypeError], which [search] catches. *)
Definition _cached_search (st : VectorStore) (q : Query) (mode : str)
  : VectorStore * result (list SearchResult) :=
  if negb (hashable q) then (st, Err TypeError)
  else
    match lru_lookup (q, mode) (cache st) with
    | Some v => (set_cache st (lru_touch (q, mode) v (cache st)), Ok v)
    | None =>
        match _execute_search_impl st q mode with
        | Ok v =>
            (set_cache st (lru_insert (cache_size st) (q, mode) v (cache st)),
             Ok v)
        | Err e => (st, Err e)
        end
    end.

(** [search] *)
Definition search (st : VectorStore) (q : Query) (mode : option str)
  (use_cache : bool) : VectorStore * result (list SearchResult) :=
  match resolve_mode mode q with
  | Err e => (st, Err e)
  | Ok mode =>
      match validate mode q with
      | Err e => (st, Err e)
      | Ok _ =>
          let uncached :=
            (st, results <- dispatch st q mode
                               (L ". Use 'vector', 'fts', or 'hybrid'") ;;
                 Ok (_post_filter results (min_score q))) in
          if cache_enabled st && use_cache then
            match _cached_search st q mode with
            | (_, Err TypeError) => uncached
            | r => r
            end
          else uncached
      end
  end.

End Search.

Definition in_unit (r : SearchResult) : Prop := (0 <= score r <= 1)%Q.

(** The errors of a conversion: pydantic's, or the division of the
    distance transform. *)
Definition conversion_error (st : score_type) (e : error) : Prop :=
  e = ValidationError \/ (st = distance /\ e = ZeroDivisionError).

(** The errors a mode's search lets escape. *)
Definition scoring_error (e : error) : Prop :=
  e = ValidationError \/ e = ZeroDivisionError.

Definition known_mode (m : str) : Prop :=
  m = L "vector" \/ m = L "fts" \/ m = L "hybrid".

(** What [_cached_search] can have stored: results of a known mode, with
    validated scores. It holds of an empty cache and every operation of
    the store keeps it. *)
Definition cache_ok (st : VectorStore) : Prop :=
  Forall (fun e => known_mode (snd (fst e)) /\ Forall in_unit (snd e))
         (cache st).

(** The failure condition as the specification words it: the input that
    the resolved mode requires is missing. *)
Definition required_input_missing (mode : option str) (q : Query) : Prop :=
  (mode = None /\ query_text q = None /\ query_vector q = None)
  \/ (exists m, resolve_mode mode q = Ok m /\
        ((m = L "vector" /\ query_vector q = None)
         \/ ((m = L "fts" \/ m = L "hybrid") /\ query_text q = None))).

(** The failure condition of the code: without an explicit mode an empty
    text or vector counts as absent, and a mode outside the three names is
    refused. *)
Definition invalid_arguments (mode : option str) (q : Query) : Prop :=
  (mode = None /\ opt_truthy (query_text q) = false
               /\ opt_truthy (query_vector q) = false)
  \/ (exists m, resolve_mode mode q = Ok m /\
        ((m = L "vector" /\ query_vector q = None)
         \/ ((m = L "fts" \/ m = L "hybrid") /\ query_text q = None)
         \/ ~ known_mode m)).

Definition fails_invalid {A} (r : result A) : Prop :=
  exists msg, r = Err (ValueError msg).

(** Stand-ins for the engine in the examples: every row of the table, in
    order, at distance [0] (vector) or with relevance [1/2] (keyword and
    hybrid). *)
Definition demo_vector_engine (t : list CodeChunk) (v : list Q) (limit : Z)
  (where_ : option str) : list Row :=
  map (fun c => mkRow c (Some 0%Q) None) t.

Definition demo_text_engine (t : list CodeChunk) (text : str) (limit : Z)
  (where_ : option str) : option (list Row) :=
  Some (map (fun c => mkRow c None (Some (1 # 2)%Q)) t).

Definition demo_search :=
  search demo_vector_engine demo_text_engine demo_text_engine.

Definition demo_chunk (p : str) : CodeChunk :=
  mkChunk (repeat 0%Q 384) (L "def foo(): pass") p 1 1 (L "function")
          (Some (L "foo")) (L "python") (L "h1") 0%Q None.

(** A keyword query for [text] with every filter absent. *)
Definition text_query (text : str) : Query :=
  mkQuery (Some text) None 10 (1 # 2)%Q None None None None None None 0%Q.

(** A store with the cache on, as [VectorStore.__init__] sets it up. *)
Definition new_store (rows : list CodeChunk) : VectorStore :=
  mkStore true 100 rows [].

(** [clear_all]: the table is dropped and created empty on next access. *)
Definition clear_all (st : VectorStore) : VectorStore := set_table st [].

Definition str_dec : forall a b : str, {a = b} + {a <> b} :=
  list_eq_dec ascii_dec.

Definition mem (p : str) (l : list str) : bool :=
  if in_dec str_dec p l then true else false.



(** [Series.value_counts().to_dict()] *)
Definition value_counts (l : list str) : list (str * Z) :=
  map (fun k => (k, len (filter (str_eqb k) l))) (nodup str_dec l).

(** [Series.max()] over a non-empty column. *)
Definition q_max (x : Q) (l : list Q) : Q :=
  fold_left (fun m y => if Qle_bool y m then m else y) l x.

(** [get_stats] *)
Definition get_stats (st : VectorStore) : IndexStats :=
  let total_chunks := count_rows st in
  if total_chunks =? 0 then IndexStats_default
  else
    let all_chunks := table st in
    mkStats (len (nodup str_dec (map path all_chunks)))
            total_chunks
            (fold_right Z.add 0 (map (fun c => len (text c)) all_chunks))
            (value_counts (map language all_chunks))
            (match map indexed_at all_chunks with
             | [] => None
             | x :: l => Some (q_max x l)
             end).

(** Lookup in a dict kept as an association list. *)
Fixpoint dict_get (k : str) (d : list (str * Z)) : option Z :=
  match d with
  | [] => None
  | (k', v) :: rest => if str_eqb k k' then Some v else dict_get k rest
  end.

(** The number of occurrences of [k] in a column, and their sum over keys. *)
Definition count_of (k : str) (l : list str) : Z := len (filter (str_eqb k) l).

Definition sum_counts (keys l : list str) : Z :=
  fold_right Z.add 0 (map (fun k => count_of k l) keys).

(** The six filters of a query, each absent or empty. *)
Definition no_filter (q : Query) : Prop :=
  opt_truthy (extensions q) = false /\
  opt_truthy (directories q) = false /\
  opt_truthy (chunk_types q) = false /\
  opt_truthy (languages q) = false /\
  opt_truthy (file_filter q) = false /\
  opt_truthy (branch_filter q) = false.

(** The two results of a cached and an uncached call agree: they are
    equal, or both are the refusal of the mode (whose message differs). *)
Definition same_outcome {A} (a b : result A) : Prop :=
  a = b \/ (fails_invalid a /\ fails_invalid b).

End Store.

(** ** result_enhancer.py *)

Module Enhancer.

Import Models.

(** [_calculate_overlap] *)
Definition _calculate_overlap (start1 end1 start2 end2 : Z) : Q :=
  let overlap_start := Z.max start1 start2 in
  let overlap_end := Z.min end1 end2 in
  if overlap_start >? overlap_end then 0%Q
  else
    let overlap_lines := overlap_end - overlap_start + 1 in
    let range1_lines := end1 - start1 + 1 in
    let range2_lines := end2 - start2 + 1 in
    let smaller_range := Z.min range1_lines range2_lines in
    if smaller_range >? 0
    then (inject_Z overlap_lines / inject_Z smaller_range)%Q
    else 0%Q.

Definition overlap_of (a b : SearchResult) : Q :=
  _calculate_overlap (start_line (chunk a)) (end_line (chunk a))
                     (start_line (chunk b)) (end_line (chunk b)).

(** [by_file[path].append(result)] on a dict that keeps insertion order. *)
Fixpoint group_add (r : SearchResult) (by_file : list (str * list SearchResult))
  : list (str * list SearchResult) :=
  match by_file with
  | [] => [(path (chunk r), [r])]
  | (p, rs) :: rest =>
      if str_eqb p (path (chunk r)) then (p, rs ++ [r]) :: rest
      else (p, rs) :: group_add r rest
  end.

Definition group_by_file (results : list SearchResult)
  : list (str * list SearchResult) :=
  fold_left (fun by_file r => group_add r by_file) results [].

(** [l.sort(key=lambda r: r.score, reverse=True)]: stable, equal scores
    keep their order. *)
Fixpoint insert_desc (r : SearchResult) (l : list SearchResult)
  : list SearchResult :=
  match l with
  | [] => [r]
  | x :: rest =>
      if Qle_bool (score x) (score r) then r :: x :: rest
      else x :: insert_desc r rest
  end.

Fixpoint sort_desc (l : list SearchResult) : list SearchResult :=
  match l with
  | [] => []
  | r :: rest => insert_desc r (sort_desc rest)
  end.

(** The inner loop over [kept]: does [result] overlap a kept result? *)
Definition overlaps_kept (threshold : Q) (result : SearchResult)
  (kept : list SearchResult) : bool :=
  existsb (fun kept_result => Qle_bool threshold (overlap_of result kept_result))
          kept.

(** The loop [for result in file_results] that fills [kept]. *)
Fixpoint keep_loop (threshold : Q) (file_results kept : list SearchResult)
  : list SearchResult :=
  match file_results with
  | [] => kept
  | result :: rest =>
      if overlaps_kept threshold result kept
      then keep_loop threshold rest kept
      else keep_loop threshold rest (kept ++ [result])
  end.

Definition dedup_file (threshold : Q) (file_results : list SearchResult)
  : list SearchResult :=
  keep_loop threshold (sort_desc file_results) [].

(** [deduplicate] *)
Definition deduplicate (results : list SearchResult) (overlap_threshold : Q)
  : list SearchResult :=
  match results with
  | [] => results
  | _ =>
      let by_file := group_by_file results in
      let deduplicated :=
        flat_map (fun g => dedup_file overlap_threshold (snd g)) by_file in
      sort_desc deduplicated
  end.

Definition same_path (p : str) (r : SearchResult) : bool :=
  str_eqb (path (chunk r)) p.

(** A result for the examples: lines [s..e] of [p] with score [sc]. *)
Definition demo_result (p : str) (s e : Z) (sc : Q) : SearchResult :=
  mkResult (mkChunk (repeat 0%Q 384) (L "...") p s e (L "block") None
                    (L "python") (L "hash1") 0%Q None) sc.

(** Sorted by score, highest first. *)
Definition desc (a b : SearchResult) : Prop := (score b <= score a)%Q.

(** Two results overlap by less than the threshold. *)
Definition apart (thr : Q) (a b : SearchResult) : Prop :=
  (overlap_of a b < thr)%Q.

(** [by_file] holds, per path met in [l], the results of [l] with that
    path, in their order. *)
Definition grouped (l : list SearchResult)
  (by_file : list (str * list SearchResult)) : Prop :=
  NoDup (map fst by_file) /\
  (forall p rs, In (p, rs) by_file ->
     rs = filter (same_path p) l /\ rs <> []) /\
  (forall r, In r l -> In (path (chunk r)) (map fst by_file)).

(** What opening and reading a file gives. *)
Inductive file_state :=
| Missing
| Unreadable
| Lines (lines : list str).

Section Expand.

(** The file tree: [project_root / path] and what [readlines()] returns. *)
Variable fs : str -> str -> file_state.

(** The body of the loop of [expand_context] for one result. *)
Definition expand_one (lines_before lines_after : Z) (root : str)
  (result : SearchResult) : SearchResult :=
  match fs root (path (chunk result)) with
  | Missing => result
  | Unreadable => result
  | Lines lines =>
      let c := chunk result in
      let start_line' := Z.max 1 (start_line c - lines_before) in
      let end_line' := Z.min (len lines) (end_line c + lines_after) in
      let expanded_text :=
        concat (py_slice lines (start_line' - 1) end_line') in
      let built :=
        expanded_chunk <-
          CodeChunk_new (mkChunk (vector c) expanded_text (path c)
                                 start_line' end_line' (chunk_type c) (name c)
                                 (language c) (file_hash c) (indexed_at c)
                                 (branch c)) ;;
        SearchResult_new expanded_chunk (score result) in
      match built with
      | Ok r => r
      | Err _ => result
      end
  end.

(** [expand_context] *)
Definition expand_context (results : list SearchResult)
  (lines_before lines_after : Z) (project_root : option str)
  : list SearchResult :=
  match results, project_root with
  | [], _ => results
  | _, None => results
  | _, Some root => map (expand_one lines_before lines_after root) results
  end.

End Expand.

(** A file tree for the examples, under the root ["/proj"]: a three-line
    file, an empty file and a file that cannot be read. *)
Definition demo_fs (root p : str) : file_state :=
  if negb (str_eqb root (L "/proj")) then Missing
  else if str_eqb p (L "test.py")
  then Lines [L "line 1" ++ [NL]; L "line 2" ++ [NL]; L "line 3"]
  else if str_eqb p (L "empty.py") then Lines []
  else if str_eqb p (L "secret.py") then Unreadable
  else Missing.

(** [min(a, b)] and [max(a, b)] of Python: the first argument wins ties. *)
Definition py_min (a b : Q) : Q := if Qle_bool a b then a else b.
Definition py_max (a b : Q) : Q := if Qle_bool b a then a else b.

(** [min(timestamps)] and [max(timestamps)] over a non-empty list. *)
Definition list_min (x : Q) (l : list Q) : Q := fold_left py_min l x.
Definition list_max (x : Q) (l : list Q) : Q := fold_left py_max l x.

(** The loop of [rerank_by_recency] that builds the boosted results. *)
Fixpoint boost_all (recency_weight min_ts ts_range : Q)
  (results : list SearchResult) : result (list SearchResult) :=
  match results with
  | [] => Ok []
  | result :: rest =>
      let normalized_recency :=
        ((indexed_at (chunk result) - min_ts) / ts_range)%Q in
      let boosted_score :=
        py_min 1 (score result + recency_weight * normalized_recency)%Q in
      r <- SearchResult_new (chunk result) boosted_score ;;
      rs <- boost_all recency_weight min_ts ts_range rest ;;
      Ok (r :: rs)
  end.

(** [rerank_by_recency]; the construction of a boosted result validates
    its score, and that error is not caught. *)
Definition rerank_by_recency (results : list SearchResult)
  (recency_weight : Q) : result (list SearchResult) :=
  match map (fun r => indexed_at (chunk r)) results with
  | [] => Ok results
  | t :: timestamps =>
      if Qeq_bool recency_weight 0 then Ok results
      else
        let min_ts := list_min t timestamps in
        let max_ts := list_max t timestamps in
        let ts_range := (max_ts - min_ts)%Q in
        if Qeq_bool ts_range 0 then Ok results
        else
          reranked <- boost_all recency_weight min_ts ts_range results ;;
          Ok (sort_desc reranked)
  end.

(** How [rerank_by_recency] relates a result to its boosted version. *)
Definition boosted (w : Q) (r r' : SearchResult) : Prop :=
  chunk r' = chunk r /\
  (score r <= score r')%Q /\ (score r' <= 1)%Q /\
  (score r' <= score r + w)%Q.

(** The enhancement steps of the search tool ([ctx_search] in
    mcp_server.py): de-duplicate, re-rank, trim, expand. *)
Definition enhance (fs : str -> str -> file_state)
  (results : list SearchResult) (should_dedup : bool)
  (overlap_threshold recency_weight : Q) (limit : Z) (should_expand : bool)
  (lines_before lines_after : Z) (project_root : option str)
  : result (list SearchResult) :=
  let results :=
    if should_dedup then deduplicate results overlap_threshold
    else results in
  results <- rerank_by_recency results recency_weight ;;
  let results := py_slice results 0 limit in
  Ok (if should_expand
      then expand_context fs results lines_before lines_after project_root
      else results).

(** A result as the store hands it out: both models validated. *)
Definition result_ok (r : SearchResult) : Prop :=
  chunk_fields_ok (chunk r) = true /\ score_ok (score r) = true.

(** The expansion of [r] over the lines of its file. *)
Definition expanded_over (lines : list str) (lines_before lines_after : Z)
  (r r' : SearchResult) : Prop :=
  let s := Z.max 1 (start_line (chunk r) - lines_before) in
  let e := Z.min (len lines) (end_line (chunk r) + lines_after) in
  start_line (chunk r') = s /\ end_line (chunk r') = e /\
  text (chunk r') = concat (py_slice lines (s - 1) e).

(** The frame of [expand_context]: everything but text and line range. *)
Definition same_frame (a b : SearchResult) : Prop :=
  path (chunk a) = path (chunk b) /\
  language (chunk a) = language (chunk b) /\
  chunk_type (chunk a) = chunk_type (chunk b) /\
  name (chunk a) = name (chunk b) /\
  vector (chunk a) = vector (chunk b) /\
  file_hash (chunk a) = file_hash (chunk b) /\
  indexed_at (chunk a) = indexed_at (chunk b) /\
  branch (chunk a) = branch (chunk b) /\
  score a = score b.

End Enhancer.

(** ** indexer.py (serial mode) *)

Module Indexer.

Import Models Store.


Section Index.

(** [detect_language], the chunker selected for a language, the embedding
    model ([None] when it raises), the branch of the run and the clock. *)
Variable detect_language : str -> str.
Variable chunk_with : str -> str -> list Fallback.chunk_data.
Variable embed_batch : list str -> option (list (list Q)).
Variable current_branch : option str.
Variable now : Q.







End Index.





(** An entry of [_embedding_queue]:
    [(text, metadata, rel_path, file_hash, language)]. *)
Record QueueItem := mkItem {
  q_text : str;
  q_metadata : Fallback.Metadata;
  q_rel_path : str;
  q_file_hash : str;
  q_language : str
}.

(** The store and the embedding queue of an [Indexer]. *)
Record IndexerState := mkIndexer {
  store : VectorStore;
  _embedding_queue : list QueueItem
}.

Section Queue.

Variable embed_batch : list str -> option (list (list Q)).
Variable current_branch : option str.
Variable now : Q.
Variable embedding_batch_size : Z.

(** The loop of [_flush_embedding_queue] that builds the chunks. *)
Fixpoint build_queued (pairs : list (QueueItem * list Q))
  : result (list CodeChunk) :=
  match pairs with
  | [] => Ok []
  | (item, embedding) :: rest =>
      c <- CodeChunk_new
             (mkChunk embedding (q_text item) (q_rel_path item)
                      (Fallback.start_line (q_metadata item))
                      (Fallback.end_line (q_metadata item))
                      (Fallback.chunk_type (q_metadata item))
                      (Fallback.name (q_metadata item))
                      (q_language item) (q_file_hash item) now
                      current_branch) ;;
      cs <- build_queued rest ;;
      Ok (c :: cs)
  end.

(** [_flush_embedding_queue], run by one thread. *)
Definition _flush_embedding_queue (s : IndexerState)
  : IndexerState * result Z :=
  match _embedding_queue s with
  | [] => (s, Ok 0)
  | queue_copy =>
      let s0 := mkIndexer (store s) [] in
      match embed_batch (map q_text queue_copy) with
      | None => (s0, Ok 0)
      | Some embeddings =>
          match build_queued (combine queue_copy embeddings) with
          | Err e => (s0, Err e)
          | Ok chunks =>
              (mkIndexer (add_chunks (store s) chunks) [], Ok (len chunks))
          end
      end
  end.

(** [_batch_embed_and_store], run by one thread. *)
Definition _batch_embed_and_store (s : IndexerState) (item : QueueItem)
  : IndexerState * result unit :=
  let s1 := mkIndexer (store s) (_embedding_queue s ++ [item]) in
  if len (_embedding_queue s1) >=? embedding_batch_size
  then
    let '(s2, r) := _flush_embedding_queue s1 in
    (s2, _ <- r ;; Ok tt)
  else (s1, Ok tt).

End Queue.

(** The chunk that a queue entry becomes, its vector and time aside. *)
Definition stored_as (item : QueueItem) (c : CodeChunk) : Prop :=
  text c = q_text item /\ path c = q_rel_path item /\
  file_hash c = q_file_hash item /\ language c = q_language item /\
  start_line c = Fallback.start_line (q_metadata item) /\
  end_line c = Fallback.end_line (q_metadata item).



End Indexer.

(** * Properties *)

(** ** Python string primitives *)

Module PyStrFacts.

Lemma len_nonneg {A} (l : list A) : 0 <= len l.
Proof. unfold len. lia. Qed.

Lemma norm_index_nonneg (n i : Z) :
  0 <= n -> 0 <= i -> norm_index n i = Z.min i n.
Proof.
  intros Hn Hi. unfold norm_index.
  destruct (Z.ltb_spec i 0); [lia | reflexivity].
Qed.

Lemma py_slice_nonneg {A} (l : list A) (a b : Z) :
  0 <= a -> 0 <= b ->
  py_slice l a b =
  firstn (Z.to_nat (Z.min b (len l) - Z.min a (len l)))
         (skipn (Z.to_nat (Z.min a (len l))) l).
Proof.
  intros Ha Hb. unfold py_slice.
  rewrite !norm_index_nonneg by (auto using len_nonneg). reflexivity.
Qed.

Lemma py_slice_length {A} (l : list A) (a b : Z) :
  0 <= a -> a <= b -> len (py_slice l a b) <= b - a.
Proof.
  intros Ha Hab. rewrite py_slice_nonneg by lia.
  unfold len. rewrite length_firstn. lia.
Qed.

Lemma py_slice_nth {A} (l : list A) (a b : Z) (j : nat) :
  0 <= a -> a <= Z.of_nat j -> Z.of_nat j < b ->
  nth_error (py_slice l a b) (Z.to_nat (Z.of_nat j - a)) = nth_error l j.
Proof.
  intros Ha Haj Hjb.
  destruct (Nat.lt_ge_cases j (length l)) as [Hj | Hj].
  - rewrite py_slice_nonneg by lia. unfold len.
    rewrite nth_error_firstn.
    destruct (Nat.ltb_spec (Z.to_nat (Z.of_nat j - a))
                (Z.to_nat (Z.min b (Z.of_nat (length l))
                           - Z.min a (Z.of_nat (length l))))); [| lia].
    rewrite nth_error_skipn. f_equal. lia.
  - assert (Hn : nth_error l j = None) by (apply nth_error_None; lia).
    rewrite Hn. apply nth_error_None.
    rewrite py_slice_nonneg by lia. unfold len.
    rewrite length_firstn, length_skipn. lia.
Qed.

Lemma Forall_firstn {A} (P : A -> Prop) (n : nat) (l : list A) :
  Forall P l -> Forall P (firstn n l).
Proof.
  intros H. revert n. induction H; intros [| n]; simpl; auto.
Qed.

Lemma Forall_skipn {A} (P : A -> Prop) (n : nat) (l : list A) :
  Forall P l -> Forall P (skipn n l).
Proof.
  intros H. revert n. induction H; intros [| n]; simpl; auto.
Qed.

Lemma py_slice_Forall {A} (P : A -> Prop) (l : list A) (a b : Z) :
  Forall P l -> Forall P (py_slice l a b).
Proof.
  intros H. unfold py_slice. apply Forall_firstn, Forall_skipn, H.
Qed.

Lemma no_space_rev (w : str) : no_space w -> no_space (rev w).
Proof.
  unfold no_space. rewrite !forallb_forall.
  intros H c Hc. apply H. now apply in_rev.
Qed.

Lemma split_ws_aux_words (s cur : str) :
  no_space cur -> Forall word (split_ws_aux s cur).
Proof.
  revert cur. induction s as [| c s IH]; intros cur Hcur; simpl.
  - destruct cur as [| x cur]; constructor; [| constructor].
    split; [| now apply no_space_rev].
    intros E. apply (f_equal (@length ascii)) in E.
    rewrite length_rev in E. discriminate.
  - destruct (is_space c) eqn:Hc.
    + destruct cur as [| x cur].
      * apply IH. reflexivity.
      * constructor; [| apply IH; reflexivity].
        split; [| now apply no_space_rev].
        intros E. apply (f_equal (@length ascii)) in E.
        rewrite length_rev in E. discriminate.
    + apply IH. unfold no_space. simpl. rewrite Hc. exact Hcur.
Qed.

Lemma split_ws_words (s : str) : Forall word (split_ws s).
Proof. apply split_ws_aux_words. reflexivity. Qed.

Lemma split_ws_aux_app (w s cur : str) :
  no_space w -> split_ws_aux (w ++ s) cur = split_ws_aux s (rev w ++ cur).
Proof.
  revert cur. induction w as [| c w IH]; intros cur Hw; simpl.
  - reflexivity.
  - unfold no_space in Hw. simpl in Hw.
    apply andb_true_iff in Hw as [Hc Hw].
    apply negb_true_iff in Hc. rewrite Hc.
    rewrite IH by exact Hw. now rewrite <- app_assoc.
Qed.

Lemma is_space_SP : is_space SP = true.
Proof. reflexivity. Qed.

(** Splitting the join of words gives the words back. *)
Lemma split_ws_join (ws : list str) :
  Forall word ws -> split_ws (join [SP] ws) = ws.
Proof.
  unfold split_ws. induction 1 as [| w ws [Hne Hw] Hws IH]; [reflexivity |].
  destruct ws as [| w2 ws].
  - simpl. rewrite <- (app_nil_r w) at 1.
    rewrite split_ws_aux_app by exact Hw. simpl. rewrite app_nil_r.
    destruct (rev w) eqn:E.
    + apply (f_equal (@length ascii)) in E. rewrite length_rev in E.
      destruct w; [congruence | discriminate].
    + now rewrite <- E, rev_involutive.
  - change (join [SP] (w :: w2 :: ws))
      with (w ++ SP :: join [SP] (w2 :: ws)).
    rewrite split_ws_aux_app by exact Hw. rewrite app_nil_r.
    cbn [split_ws_aux]. rewrite is_space_SP.
    destruct (rev w) eqn:E.
    + apply (f_equal (@length ascii)) in E. rewrite length_rev in E.
      destruct w; [congruence | discriminate].
    + rewrite <- E, rev_involutive. f_equal. exact IH.
Qed.

End PyStrFacts.

(** ** Paragraph fallback chunker *)

Module FallbackFacts.

Import Fallback PyStrFacts.

Section Loop.

Variables max_chunk_size chunk_overlap : Z.
Let step := max_chunk_size - chunk_overlap.
Hypothesis step_pos : 0 < step.

(** With a positive step the loop returns once the fuel covers the words
    that are left. *)
Lemma split_loop_returns (fuel : nat) (words : list str) (i line : Z) :
  len words - i <= Z.of_nat fuel ->
  exists chunks,
    split_loop max_chunk_size chunk_overlap fuel words i line = Some chunks.
Proof.
  revert i line. induction fuel as [| fuel IH]; intros i line Hfuel; simpl.
  - destruct (Z.ltb_spec i (len words)); [lia | eauto].
  - destruct (Z.ltb_spec i (len words)); [| eauto].
    destruct (IH (i + (max_chunk_size - chunk_overlap))
                 (line + (count_char NL
                            (join [SP]
                               (py_slice words i (i + max_chunk_size))) + 1)))
      as [chunks Hc].
    + fold step. lia.
    + rewrite Hc. simpl. eauto.
Qed.

(** Window [k] starts [k] steps after [i] and takes [max_chunk_size] words. *)
Lemma split_loop_nth (fuel : nat) (words : list str) (i line : Z) chunks :
  split_loop max_chunk_size chunk_overlap fuel words i line = Some chunks ->
  forall k,
    nth_error (map fst chunks) k =
    if i + Z.of_nat k * step <? len words
    then Some (join [SP]
                 (py_slice words (i + Z.of_nat k * step)
                           (i + Z.of_nat k * step + max_chunk_size)))
    else None.
Proof.
  revert i line chunks.
  induction fuel as [| fuel IH]; intros i line chunks Hrun k; simpl in Hrun.
  - destruct (Z.ltb_spec i (len words)); [discriminate |].
    injection Hrun as <-.
    destruct (Z.ltb_spec (i + Z.of_nat k * step) (len words)); [nia |].
    now destruct k.
  - destruct (Z.ltb_spec i (len words)) as [Hi | Hi].
    + destruct (split_loop _ _ fuel words _ _) as [rest |] eqn:Hrest;
        [| discriminate].
      simpl in Hrun. injection Hrun as <-.
      destruct k as [| k]; simpl map; cbn [nth_error].
      * replace (i + Z.of_nat 0 * step) with i by lia.
        destruct (Z.ltb_spec i (len words)); [reflexivity | lia].
      * rewrite (IH _ _ _ Hrest k). fold step.
        replace (i + step + Z.of_nat k * step)
          with (i + Z.of_nat (S k) * step) by lia.
        reflexivity.
    + injection Hrun as <-.
      destruct (Z.ltb_spec (i + Z.of_nat k * step) (len words)); [nia |].
      now destruct k.
Qed.

End Loop.

Lemma lstrip_fixed (c : ascii) (s : str) :
  is_space c = false -> lstrip (c :: s) = c :: s.
Proof. intros H. simpl. now rewrite H. Qed.

Lemma lstrip_head (s : str) :
  lstrip s = [] \/ exists c t, lstrip s = c :: t /\ is_space c = false.
Proof.
  induction s as [| c s IH]; simpl; [now left |].
  destruct (is_space c) eqn:Hc; [exact IH | right; eauto].
Qed.

Lemma lstrip_idem (s : str) : lstrip (lstrip s) = lstrip s.
Proof.
  destruct (lstrip_head s) as [E | (c & t & E & Hc)]; rewrite E;
    [reflexivity | now apply lstrip_fixed].
Qed.

Lemma lstrip_snoc (u : str) (c : ascii) :
  is_space c = false -> exists v, lstrip (u ++ [c]) = v ++ [c].
Proof.
  intros Hc. induction u as [| a u IH]; simpl.
  - rewrite Hc. now exists [].
  - destruct (is_space a); [exact IH | now exists (a :: u)].
Qed.

Lemma rstrip_head (c : ascii) (t : str) :
  is_space c = false -> exists t', rstrip (c :: t) = c :: t'.
Proof.
  intros Hc. unfold rstrip. simpl rev.
  destruct (lstrip_snoc (rev t) c Hc) as [v Hv]. rewrite Hv.
  rewrite rev_app_distr. simpl. eauto.
Qed.

Lemma rstrip_idem (s : str) : rstrip (rstrip s) = rstrip s.
Proof.
  unfold rstrip. now rewrite rev_involutive, lstrip_idem.
Qed.

(** [strip] is idempotent: a stripped paragraph passes the
    [if not para.strip()] test again. *)
Lemma strip_idem (s : str) : strip (strip s) = strip s.
Proof.
  unfold strip.
  destruct (lstrip_head s) as [E | (c & t & E & Hc)]; rewrite E.
  - reflexivity.
  - destruct (rstrip_head c t Hc) as [t' Ht']. rewrite Ht'.
    rewrite lstrip_fixed by exact Hc. rewrite <- Ht'. apply rstrip_idem.
Qed.

Lemma split_aux_no_sep (sep s cur : str) :
  contains sep s = false -> split_aux sep s 0 cur = [rev cur ++ s].
Proof.
  revert cur. induction s as [| c s IH]; intros cur H.
  - simpl. now rewrite app_nil_r.
  - cbn [contains] in H. apply orb_false_iff in H as [Hp Hs].
    cbn [split_aux]. rewrite Hp, IH by exact Hs.
    simpl. now rewrite <- app_assoc.
Qed.

Lemma split_on_no_sep (sep s : str) :
  contains sep s = false -> split_on sep s = [s].
Proof. intros H. unfold split_on. now rewrite split_aux_no_sep. Qed.

Lemma truthy_true (s : str) : s <> [] -> truthy s = true.
Proof. destruct s; [congruence | reflexivity]. Qed.

(** C5 (as amended): whitespace-only content yields no chunk; content with
    no blank-line separator and at most [max_chunk_size] words yields
    exactly one chunk, of type [paragraph], whose text is the stripped
    input and whose lines are counted on the stripped input. *)
Theorem C5_fallback_single_paragraph
  (max_chunk_size chunk_overlap : Z) (fuel : nat) (content : str) :
  (strip content = [] ->
   chunk max_chunk_size chunk_overlap fuel content = Some [])
  /\ (strip content <> [] ->
      contains [NL; NL] content = false ->
      len (split_ws (strip content)) <= max_chunk_size ->
      chunk max_chunk_size chunk_overlap fuel content =
      Some [(strip content,
             mkMeta 1 (count_char NL (strip content) + 1)
                    (L "paragraph") None)]).
Proof.
  split.
  - intros E. unfold chunk. now rewrite E.
  - intros Hne Hsep Hwc. unfold chunk, _split_into_paragraphs.
    rewrite (truthy_true _ Hne). cbn [negb].
    rewrite (split_on_no_sep _ _ Hsep). cbn [filter].
    rewrite (truthy_true _ Hne). cbn [map chunk_paragraphs].
    rewrite strip_idem, (truthy_true _ Hne). cbn [negb].
    destruct (Z.leb_spec (len (split_ws (strip content))) max_chunk_size);
      [| lia].
    cbn [app]. do 4 f_equal. lia.
Qed.

Lemma C5_fallback_single_paragraph_witness :
  chunk 500 50 0 (L "  ") = Some []
  /\ chunk 500 50 0 (L "hello world ") =
     Some [(L "hello world", mkMeta 1 1 (L "paragraph") None)].
Proof.
  split.
  - apply (C5_fallback_single_paragraph 500 50 0 (L "  ")). reflexivity.
  - apply (C5_fallback_single_paragraph 500 50 0 (L "hello world "));
      [discriminate | reflexivity | vm_compute; discriminate].
Defined.

(** C5 as stated fails: a single short paragraph comes back typed
    [paragraph], not [block]. *)
Lemma C5_single_block_counterexample :
  strip (L "hello") <> [] /\
  contains [NL; NL] (L "hello") = false /\
  ~ single_block_spec (L "hello") (chunk 500 50 0 (L "hello")).
Proof.
  split; [discriminate |]. split; [reflexivity |].
  unfold single_block_spec. vm_compute. discriminate.
Qed.

(** C9 (as amended): with [0 <= chunk_overlap < max_chunk_size] and enough
    fuel for the words, the loop over a paragraph longer than
    [max_chunk_size] words returns; window [k] holds the words from index
    [k * (max_chunk_size - chunk_overlap)], at most [max_chunk_size] of
    them, and every word of the paragraph lies in a window. *)
Theorem C9_window_splitting
  (max_chunk_size chunk_overlap : Z) (fuel : nat) (paragraph : str) :
  0 <= chunk_overlap ->
  chunk_overlap < max_chunk_size ->
  max_chunk_size < len (split_ws paragraph) ->
  (length (split_ws paragraph) <= fuel)%nat ->
  window_spec max_chunk_size chunk_overlap fuel paragraph.
Proof.
  intros Hov Hlt Hlarge Hfuel. unfold window_spec, _split_large_paragraph.
  set (words := split_ws paragraph) in *.
  set (step := max_chunk_size - chunk_overlap).
  assert (Hstep : 0 < step) by (unfold step; lia).
  destruct (split_loop_returns max_chunk_size chunk_overlap Hstep
              fuel words 0 1) as [chunks Hrun].
  { unfold len. lia. }
  exists chunks. split; [exact Hrun |].
  pose proof (split_loop_nth max_chunk_size chunk_overlap Hstep
                fuel words 0 1 chunks Hrun) as Hnth.
  fold step in Hnth.
  assert (Hwords : Forall word words) by apply split_ws_words.
  assert (Hwin : forall k win,
             nth_error (map (fun c => split_ws (fst c)) chunks) k = Some win ->
             win = py_slice words (Z.of_nat k * step)
                            (Z.of_nat k * step + max_chunk_size)).
  { intros k win Hk. rewrite <- (map_map fst split_ws) in Hk.
    rewrite nth_error_map in Hk. rewrite Hnth in Hk.
    replace (0 + Z.of_nat k * step) with (Z.of_nat k * step) in Hk by lia.
    destruct (Z.of_nat k * step <? len words); [| discriminate].
    simpl in Hk. injection Hk as <-.
    apply split_ws_join, py_slice_Forall, Hwords. }
  split; [exact Hwin |]. split.
  - apply Forall_forall. intros win Hin.
    apply In_nth_error in Hin as [k Hk]. rewrite (Hwin k win Hk).
    pose proof (py_slice_length words (Z.of_nat k * step)
                  (Z.of_nat k * step + max_chunk_size)). nia.
  - intros j w Hj.
    assert (Hjlen : Z.of_nat j < len words).
    { unfold len. apply Nat2Z.inj_lt, nth_error_Some. congruence. }
    set (k := Z.to_nat (Z.of_nat j / step)).
    assert (Hk : Z.of_nat k = Z.of_nat j / step).
    { unfold k. rewrite Z2Nat.id; [reflexivity |].
      apply Z.div_pos; lia. }
    pose proof (Z.mul_div_le (Z.of_nat j) step Hstep) as Hlo.
    pose proof (Z.mul_succ_div_gt (Z.of_nat j) step Hstep) as Hhi.
    assert (Hk1 : Z.of_nat k * step <= Z.of_nat j) by nia.
    assert (Hk2 : Z.of_nat j < Z.of_nat k * step + max_chunk_size)
      by (unfold step in *; nia).
    exists k, (py_slice words (Z.of_nat k * step)
                        (Z.of_nat k * step + max_chunk_size)).
    split; [| split; [exact Hk1 |]].
    + rewrite <- (map_map fst split_ws), nth_error_map, Hnth.
      replace (0 + Z.of_nat k * step) with (Z.of_nat k * step) by lia.
      destruct (Z.ltb_spec (Z.of_nat k * step) (len words)); [| lia].
      simpl. f_equal. apply split_ws_join, py_slice_Forall, Hwords.
    + rewrite py_slice_nth by lia. exact Hj.
Qed.

Lemma C9_window_splitting_witness :
  window_spec 2 1 3 (L "a b c").
Proof.
  apply (C9_window_splitting 2 1 3 (L "a b c"));
    [lia | lia | vm_compute; reflexivity | vm_compute; lia].
Defined.

(** C9 as stated fails: [chunk_overlap < max_chunk_size] admits a negative
    overlap, whose step jumps over words. With [max_chunk_size = 2] and
    [chunk_overlap = -1] the windows of ["a b c d"] are ["a b"] and ["d"]. *)
Lemma C9_negative_overlap_counterexample :
  -1 < 2 /\ 2 < len (split_ws (L "a b c d")) /\
  _split_large_paragraph 2 (-1) 4 (L "a b c d") 1 =
    Some [(L "a b", mkMeta 1 1 (L "paragraph") None);
          (L "d", mkMeta 2 2 (L "paragraph") None)] /\
  forall fuel, ~ window_spec 2 (-1) fuel (L "a b c d").
Proof.
  split; [lia |]. split; [vm_compute; reflexivity |].
  split; [vm_compute; reflexivity |].
  intros fuel (chunks & _ & Hwin & _ & Hcover).
  destruct (Hcover 2%nat (L "c") eq_refl) as (k & win & Hk & Hle & Hw).
  apply Hwin in Hk. subst win.
  destruct k as [| k]; [| lia].
  vm_compute in Hw. discriminate.
Qed.

End FallbackFacts.

(** ** Header-based markdown chunker *)

Module MarkdownFacts.

Import Fallback Markdown PyStrFacts FallbackFacts.

Lemma join_cons (sep x : str) (l : list str) :
  l <> [] -> join sep (x :: l) = x ++ sep ++ join sep l.
Proof. destruct l; [congruence | reflexivity]. Qed.

Lemma split_aux_nonempty (sep s : str) (skip : nat) (cur : str) :
  split_aux sep s skip cur <> [].
Proof.
  revert skip cur. induction s as [| c s IH]; intros skip cur; simpl.
  - discriminate.
  - destruct skip; [| apply IH].
    destruct (starts_with sep (c :: s)); [discriminate | apply IH].
Qed.

Lemma join_split_aux (c : ascii) (s cur : str) :
  join [c] (split_aux [c] s 0 cur) = rev cur ++ s.
Proof.
  revert cur. induction s as [| a s IH]; intros cur.
  - simpl. now rewrite app_nil_r.
  - cbn [split_aux starts_with length Nat.sub].
    destruct (Ascii.eqb_spec c a) as [<- | Hne]; cbn [andb].
    + destruct s; cbn [starts_with];
        (rewrite join_cons by apply split_aux_nonempty);
        rewrite IH; reflexivity.
    + rewrite IH. simpl. now rewrite <- app_assoc.
Qed.

(** Joining the lines of a text gives the text back. *)
Lemma join_split_lines (s : str) : join [NL] (split_on [NL] s) = s.
Proof. apply join_split_aux. Qed.

Lemma scan_app (l1 l2 : list str) (i : Z) (s : scan_state) :
  scan (l1 ++ l2) i s = scan l2 (i + len l1) (scan l1 i s).
Proof.
  revert i s. induction l1 as [| x l1 IH]; intros i s; simpl.
  - f_equal. unfold len. simpl. lia.
  - rewrite IH. f_equal. unfold len. simpl length. lia.
Qed.

(** Lines without a header only extend the chunk being collected. *)
Lemma scan_no_header (lines : list str) (i : Z) (s : scan_state) :
  Forall (fun l => is_header l = false) lines ->
  scan lines i s =
  mkScan (chunks s) (current_chunk s ++ lines) (current_start s)
         (header_name s).
Proof.
  intros H. revert i s.
  induction H as [| l lines Hl _ IH]; intros i s; simpl.
  - rewrite app_nil_r. now destruct s.
  - rewrite IH. unfold scan_step, is_header in *.
    destruct (header_match l); [discriminate |].
    simpl. now rewrite <- app_assoc.
Qed.

(** The loop never rewrites a finished chunk. *)
Lemma scan_extends (lines : list str) (i : Z) (s : scan_state) :
  exists extra, chunks (scan lines i s) = chunks s ++ extra.
Proof.
  revert i s. induction lines as [| l lines IH]; intros i s; simpl.
  - exists []. now rewrite app_nil_r.
  - destruct (IH (i + 1) (scan_step i l s)) as [extra He]. rewrite He.
    unfold scan_step.
    destruct (header_match l); simpl; [| eauto].
    destruct (non_empty (current_chunk s)); [| eauto].
    rewrite <- app_assoc. eauto.
Qed.

(** C6 (as amended): the two-header example yields the chunks named "A"
    and "B", the first ending on the line before the second header; the
    lines before a first header form a chunk of their own with no name;
    content without header lines is one whole-file chunk, typed [section],
    with no name; blank content yields no chunk. *)
Theorem C6_markdown_chunking :
  chunk (L "# A

x

## B

y") =
    [(L "# A

x
", mkMeta 1 4 (L "section") (Some (L "A")));
     (L "## B

y", mkMeta 5 7 (L "section") (Some (L "B")))]
  /\ (forall content pre h rest g,
        strip content <> [] ->
        split_on [NL] content = pre ++ h :: rest ->
        pre <> [] ->
        Forall (fun l => is_header l = false) pre ->
        header_match h = Some g ->
        hd_error (chunk content) =
        Some (join [NL] pre, mkMeta 1 (len pre) (L "section") None))
  /\ (forall content,
        strip content <> [] ->
        Forall (fun l => is_header l = false) (split_on [NL] content) ->
        chunk content =
        [(content, mkMeta 1 (len (split_on [NL] content)) (L "section") None)])
  /\ (forall content, strip content = [] -> chunk content = []).
Proof.
  split; [vm_compute; reflexivity |]. split; [| split].
  - intros content pre h rest g Hne Hlines Hpre Hno Hh.
    assert (Hfinal : exists extra,
               chunks (scan (split_on [NL] content) 1 (mkScan [] [] 1 None))
               = (join [NL] pre, mkMeta 1 (len pre) (L "section") None)
                 :: extra).
    { rewrite Hlines, scan_app, (scan_no_header pre) by exact Hno.
      cbn [scan chunks current_chunk current_start header_name app].
      match goal with
      | |- context [scan rest ?i ?s] =>
          destruct (scan_extends rest i s) as [extra He]; rewrite He
      end.
      unfold scan_step. rewrite Hh.
      cbn [chunks current_chunk current_start header_name app].
      replace (non_empty pre) with true
        by (destruct pre; [congruence | reflexivity]).
      replace (1 + len pre - 1) with (len pre) by lia.
      cbn [app]. eauto. }
    destruct Hfinal as [extra Hfinal].
    unfold chunk. rewrite (truthy_true _ Hne). cbn [negb].
    destruct (scan (split_on [NL] content) 1 (mkScan [] [] 1 None))
      as [cs cc st hn].
    cbn [chunks current_chunk current_start header_name] in *. subst cs.
    destruct (non_empty cc); reflexivity.
  - intros content Hne Hno.
    unfold chunk. rewrite (truthy_true _ Hne). cbn [negb].
    rewrite (scan_no_header _ 1 _ Hno).
    cbn [chunks current_chunk current_start header_name app].
    pose proof (join_split_lines content) as Hj.
    destruct (split_on [NL] content) as [| l ls] eqn:E.
    + exfalso. exact (split_aux_nonempty _ _ _ _ E).
    + cbn [non_empty app]. unfold _make_chunk. now rewrite Hj.
  - intros content E. unfold chunk. now rewrite E.
Qed.

Lemma C6_markdown_chunking_witness :
  hd_error (chunk (L "intro
# T")) = Some (L "intro", mkMeta 1 1 (L "section") None)
  /\ chunk (L "plain") = [(L "plain", mkMeta 1 1 (L "section") None)]
  /\ chunk (L " ") = [].
Proof.
  destruct C6_markdown_chunking as (_ & Hpre & Hnone & Hblank).
  split; [| split].
  - apply (Hpre (L "intro
# T") [L "intro"] (L "# T") [] (L "T"));
      [discriminate | reflexivity | discriminate
       | repeat constructor | reflexivity].
  - apply (Hnone (L "plain")); [discriminate | repeat constructor].
  - apply (Hblank (L " ")). reflexivity.
Defined.

(** C6 as stated fails: content without headers comes back typed
    [section], the [block] branch is never reached. *)
Lemma C6_no_header_counterexample :
  strip (L "hi") <> [] /\
  Forall (fun l => is_header l = false) (split_on [NL] (L "hi")) /\
  chunk (L "hi") = [(L "hi", mkMeta 1 1 (L "section") None)] /\
  ~ no_header_block_spec (L "hi").
Proof.
  split; [discriminate |]. split; [repeat constructor |].
  split; [reflexivity |].
  unfold no_header_block_spec. vm_compute. discriminate.
Qed.

End MarkdownFacts.

(** ** Search engine *)

Module StoreFacts.

Import Models Store.

Lemma score_ok_iff (s : Q) : score_ok s = true <-> (0 <= s <= 1)%Q.
Proof.
  unfold score_ok. rewrite andb_true_iff, !Qle_bool_iff. tauto.
Qed.

Lemma SearchResult_new_ok (c : CodeChunk) (s : Q) (r : SearchResult) :
  SearchResult_new c s = Ok r -> r = mkResult c s /\ in_unit r.
Proof.
  unfold SearchResult_new. destruct (score_ok s) eqn:E; [| discriminate].
  intros [= <-]. split; [reflexivity | now apply score_ok_iff].
Qed.

Lemma CodeChunk_new_ok (f c : CodeChunk) :
  CodeChunk_new f = Ok c -> c = f /\ chunk_fields_ok f = true.
Proof.
  unfold CodeChunk_new. destruct (chunk_fields_ok f); [| discriminate].
  now intros [= <-].
Qed.


Lemma convert_row_ok (st : score_type) (row : Row) (r : SearchResult) :
  convert_row st row = Ok r ->
  chunk r = row_fields row /\ in_unit r /\
  chunk_fields_ok (row_fields row) = true.
Proof.
  unfold convert_row, bind.
  destruct (match st with distance => _ | _ => _ end) as [s |];
    [| discriminate].
  destruct (CodeChunk_new (row_fields row)) as [c |] eqn:Ec; [| discriminate].
  apply CodeChunk_new_ok in Ec as [-> Hf].
  intros H. apply SearchResult_new_ok in H as [-> Hu]. auto.
Qed.

Lemma convert_row_err (st : score_type) (row : Row) (e : error) :
  convert_row st row = Err e -> conversion_error st e.
Proof.
  unfold convert_row, bind, CodeChunk_new, SearchResult_new, conversion_error.
  destruct st; try destruct (Qeq_bool _ 0);
    try (destruct (chunk_fields_ok _); [| intros [= <-]; now left];
         destruct (score_ok _); intros [= <-]; now left).
  intros [= <-]. now right.
Qed.

Lemma convert_results_unit (rows : list Row) (st : score_type) rs :
  _convert_results rows st = Ok rs -> Forall in_unit rs.
Proof.
  revert rs. induction rows as [| row rows IH]; intros rs; simpl.
  - intros [= <-]. constructor.
  - unfold bind.
    destruct (convert_row st row) as [r |] eqn:Er; [| discriminate].
    destruct (_convert_results rows st) as [rs' |]; [| discriminate].
    intros [= <-]. constructor; [| now apply IH].
    now apply convert_row_ok in Er.
Qed.

Lemma convert_results_err (rows : list Row) (st : score_type) (e : error) :
  _convert_results rows st = Err e -> conversion_error st e.
Proof.
  induction rows as [| row rows IH]; simpl; [discriminate |].
  unfold bind.
  destruct (convert_row st row) as [r |] eqn:Er.
  - destruct (_convert_results rows st); [discriminate |].
    intros [= <-]. now apply IH.
  - intros [= <-]. now apply convert_row_err in Er.
Qed.

Lemma conversion_scoring_error st e :
  conversion_error st e -> scoring_error e.
Proof. unfold scoring_error. intros [H | [_ H]]; auto. Qed.

Lemma conversion_error_text st e :
  st <> distance -> conversion_error st e -> e = ValidationError.
Proof. intros Hst [H | [H _]]; [exact H | contradiction]. Qed.

Lemma post_filter_In (results : list SearchResult) (m : Q) (r : SearchResult) :
  In r (_post_filter results m) <-> In r results /\ ~ (score r < m)%Q.
Proof.
  unfold _post_filter. rewrite filter_In, Qle_bool_iff.
  split; intros [Hin H]; (split; [exact Hin |]).
  - now apply Qle_not_lt.
  - now apply Qnot_lt_le.
Qed.

Lemma post_filter_unit (results : list SearchResult) (m : Q) :
  Forall in_unit results -> Forall in_unit (_post_filter results m).
Proof.
  rewrite !Forall_forall. intros H r Hr.
  apply post_filter_In in Hr as [Hr _]. auto.
Qed.

Lemma str_eqb_eq (a b : str) : str_eqb a b = true <-> a = b.
Proof.
  unfold str_eqb. destruct (list_eq_dec ascii_dec a b); split; congruence.
Qed.

Lemma str_eqb_refl (a : str) : str_eqb a a = true.
Proof. now apply str_eqb_eq. Qed.

Lemma str_eqb_spec (a b : str) : reflect (a = b) (str_eqb a b).
Proof.
  unfold str_eqb. destruct (list_eq_dec ascii_dec a b); now constructor.
Qed.

Section Engines.

Variable vector_engine : list CodeChunk -> list Q -> Z -> option str -> list Row.
Variable fts_engine : list CodeChunk -> str -> Z -> option str -> option (list Row).
Variable hybrid_engine : list CodeChunk -> str -> Z -> option str -> option (list Row).

(** Each mode's search returns validated scores, and its only error is
    pydantic's. *)
Lemma search_vector_sound st q v :
  match _search_vector vector_engine st q v with
  | Ok rs => Forall in_unit rs
  | Err e => scoring_error e
  end.
Proof.
  unfold _search_vector.
  destruct (_convert_results _ distance) eqn:E.
  - eapply convert_results_unit, E.
  - eapply conversion_scoring_error, convert_results_err, E.
Qed.

Lemma search_fts_sound st q t :
  exists rs, _search_fts fts_engine st q t = Ok rs /\ Forall in_unit rs.
Proof.
  unfold _search_fts. destruct (fts_engine _ _ _ _) as [rows |].
  - destruct (_convert_results rows fts) as [rs | e] eqn:E.
    + exists rs. split; [reflexivity |]. eapply convert_results_unit, E.
    + apply convert_results_err, conversion_error_text in E as ->;
        [simpl; eauto | discriminate].
  - eauto.
Qed.

Lemma search_hybrid_sound st q t :
  match _search_hybrid vector_engine hybrid_engine st q t with
  | Ok rs => Forall in_unit rs
  | Err e => scoring_error e
  end.
Proof.
  unfold _search_hybrid.
  assert (Hfb : match match query_vector q with
                      | Some (x :: v) =>
                          _search_vector vector_engine st q (x :: v)
                      | _ => Ok []
                      end with
                | Ok rs => Forall in_unit rs
                | Err e => scoring_error e
                end).
  { destruct (query_vector q) as [[| x v] |]; try constructor.
    apply search_vector_sound. }
  destruct (hybrid_engine _ _ _ _) as [rows |]; [| exact Hfb].
  destruct (_convert_results rows hybrid) as [rs | e] eqn:E.
  - eapply convert_results_unit, E.
  - apply convert_results_err, conversion_error_text in E as ->;
      [exact Hfb | discriminate].
Qed.

Lemma known_mode_dec (m : str) :
  {known_mode m} + {~ known_mode m}.
Proof.
  unfold known_mode.
  destruct (list_eq_dec ascii_dec m (L "vector")); [now left; left |].
  destruct (list_eq_dec ascii_dec m (L "fts")); [now left; right; left |].
  destruct (list_eq_dec ascii_dec m (L "hybrid")); [now left; right; right |].
  right. tauto.
Qed.

(** The dispatch after validation: validated scores, pydantic's error, or
    the refusal of an unknown mode. *)
Lemma dispatch_sound st q m tail :
  validate m q = Ok tt ->
  match dispatch vector_engine fts_engine hybrid_engine st q m tail with
  | Ok rs => Forall in_unit rs /\ known_mode m
  | Err (ValueError _) => ~ known_mode m
  | Err e => scoring_error e /\ known_mode m
  end.
Proof.
  unfold validate, dispatch, known_mode. intros Hv.
  destruct (str_eqb m (L "vector")) eqn:E1.
  { apply str_eqb_eq in E1 as ->.
    destruct (query_vector q) as [v |]; [| discriminate].
    pose proof (search_vector_sound st q v) as H.
    destruct (_search_vector _ _ _ _) as [rs | e]; [auto |].
    destruct H as [-> | ->]; unfold scoring_error; auto. }
  destruct (str_eqb m (L "fts")) eqn:E2.
  { apply str_eqb_eq in E2 as ->.
    destruct (query_text q) as [t |]; [| discriminate].
    destruct (search_fts_sound st q t) as (rs & -> & H). auto. }
  destruct (str_eqb m (L "hybrid")) eqn:E3.
  { apply str_eqb_eq in E3 as ->.
    destruct (query_text q) as [t |]; [| discriminate].
    pose proof (search_hybrid_sound st q t) as H.
    destruct (_search_hybrid _ _ _ _ _) as [rs | e]; [auto |].
    destruct H as [-> | ->]; unfold scoring_error; auto. }
  intros [-> | [-> | ->]]; discriminate.
Qed.

End Engines.

Lemma is_none_iff {A} (o : option A) : is_none o = true <-> o = None.
Proof. destruct o; simpl; split; congruence. Qed.

Lemma validate_spec (m : str) (q : Query) :
  match validate m q with
  | Ok _ =>
      ~ (m = L "vector" /\ query_vector q = None) /\
      ~ ((m = L "fts" \/ m = L "hybrid") /\ query_text q = None)
  | Err e =>
      (exists msg, e = ValueError msg) /\
      ((m = L "vector" /\ query_vector q = None)
       \/ ((m = L "fts" \/ m = L "hybrid") /\ query_text q = None))
  end.
Proof.
  unfold validate.
  destruct (str_eqb_spec m (L "vector")) as [-> | N1].
  - replace (str_eqb (L "vector") (L "fts")) with false by reflexivity.
    replace (str_eqb (L "vector") (L "hybrid")) with false by reflexivity.
    destruct (query_vector q); cbn [is_none andb orb].
    + split; intros [H1 H2]; [discriminate |].
      destruct H1 as [H1 | H1]; discriminate.
    + split; eauto.
  - cbn [andb]. destruct (str_eqb_spec m (L "fts")) as [-> | N2].
    + cbn [orb andb]. destruct (query_text q); cbn [is_none].
      * split; intros [H1 H2]; [congruence | discriminate].
      * split; eauto.
    + destruct (str_eqb_spec m (L "hybrid")) as [-> | N3]; cbn [orb andb].
      * destruct (query_text q); cbn [is_none].
        -- split; intros [H1 H2]; [congruence | discriminate].
        -- split; eauto.
      * split; intros [H1 H2]; [congruence |].
        destruct H1; congruence.
Qed.

Lemma resolve_mode_spec (mode : option str) (q : Query) :
  match resolve_mode mode q with
  | Ok m => ~ (mode = None /\ opt_truthy (query_text q) = false
                          /\ opt_truthy (query_vector q) = false)
  | Err e =>
      (exists msg, e = ValueError msg) /\ mode = None /\
      opt_truthy (query_text q) = false /\
      opt_truthy (query_vector q) = false
  end.
Proof.
  unfold resolve_mode. destruct mode as [m |].
  - intros (H & _). discriminate.
  - destruct (opt_truthy (query_text q)), (opt_truthy (query_vector q));
      cbn [andb]; try (intros (_ & H1 & H2); discriminate).
    eauto 6.
Qed.

Lemma key_eqb_mode (k k' : cache_key) :
  key_eqb k k' = true -> snd k = snd k'.
Proof.
  unfold key_eqb. intros H. apply andb_true_iff in H as [_ H].
  now apply str_eqb_eq.
Qed.

Section Cache.

Variable P : cache_key * list SearchResult -> Prop.

Lemma lru_lookup_found k c v :
  Forall P c -> lru_lookup k c = Some v ->
  exists k', key_eqb k k' = true /\ P (k', v).
Proof.
  induction 1 as [| [k' v'] c Hp _ IH]; simpl; [discriminate |].
  destruct (key_eqb k k') eqn:E; [| exact IH].
  intros [= <-]. eauto.
Qed.

Lemma lru_touch_keeps k v c : P (k, v) -> Forall P c -> Forall P (lru_touch k v c).
Proof.
  intros Hk Hc. constructor; [exact Hk |].
  apply Forall_forall. intros e He. apply filter_In in He as [He _].
  revert e He. now apply Forall_forall.
Qed.

Lemma lru_insert_keeps n k v c :
  P (k, v) -> Forall P c -> Forall P (lru_insert n k v c).
Proof.
  intros Hk Hc. unfold lru_insert.
  apply PyStrFacts.Forall_firstn. now constructor.
Qed.

End Cache.

Section Engines2.

Variable vector_engine : list CodeChunk -> list Q -> Z -> option str -> list Row.
Variable fts_engine : list CodeChunk -> str -> Z -> option str -> option (list Row).
Variable hybrid_engine : list CodeChunk -> str -> Z -> option str -> option (list Row).

(** [search] once the mode is resolved and the inputs validated. *)
Lemma search_body st q mode use_cache m :
  resolve_mode mode q = Ok m ->
  validate m q = Ok tt ->
  cache_ok st ->
  cache_ok (fst (search vector_engine fts_engine hybrid_engine
                        st q mode use_cache)) /\
  match snd (search vector_engine fts_engine hybrid_engine
                    st q mode use_cache) with
  | Ok rs => Forall in_unit rs /\ known_mode m
  | Err (ValueError _) => ~ known_mode m
  | Err e => scoring_error e /\ known_mode m
  end.
Proof.
  intros Hres Hval Hc. unfold search. rewrite Hres, Hval.
  set (tail := L ". Use 'vector', 'fts', or 'hybrid'").
  pose proof (dispatch_sound vector_engine fts_engine hybrid_engine
                st q m tail Hval) as Hu.
  assert (Hunc :
    cache_ok st /\
    match bind (dispatch vector_engine fts_engine hybrid_engine st q m tail)
               (fun results => Ok (_post_filter results (min_score q))) with
    | Ok rs => Forall in_unit rs /\ known_mode m
    | Err (ValueError _) => ~ known_mode m
    | Err e => scoring_error e /\ known_mode m
    end).
  { split; [exact Hc |].
    destruct (dispatch _ _ _ st q m tail) as [rs | e]; simpl.
    - destruct Hu. split; [now apply post_filter_unit | assumption].
    - exact Hu. }
  destruct (cache_enabled st && use_cache); [| exact Hunc].
  unfold _cached_search.
  destruct (hashable q); cbn [negb]; [| exact Hunc].
  destruct (lru_lookup (q, m) (cache st)) as [v |] eqn:Hl.
  - destruct (lru_lookup_found _ _ _ _ Hc Hl) as (k' & Hk & Hm & Hv).
    apply key_eqb_mode in Hk. simpl in Hk, Hm. rewrite <- Hk in Hm.
    cbn [fst snd]. split; [| auto].
    unfold cache_ok. cbn [cache set_cache].
    apply lru_touch_keeps; [simpl; auto | exact Hc].
  - unfold _execute_search_impl.
    pose proof (dispatch_sound vector_engine fts_engine hybrid_engine
                  st q m [] Hval) as Hd.
    destruct (dispatch _ _ _ st q m []) as [rs | e]; simpl.
    + destruct Hd as [Hd Hm]. split.
      * unfold cache_ok. cbn [cache set_cache].
        apply lru_insert_keeps; [| exact Hc].
        simpl. split; [exact Hm | now apply post_filter_unit].
      * split; [now apply post_filter_unit | exact Hm].
    + destruct e; cbn [fst snd]; try (split; [exact Hc | exact Hd]).
      destruct Hd as [[Hd | Hd] _]; discriminate.
Qed.

(** Whatever [search] returns carries validated scores, and the cache
    keeps holding such results. *)
Lemma search_scores st q mode use_cache st' rs :
  cache_ok st ->
  search vector_engine fts_engine hybrid_engine st q mode use_cache
    = (st', Ok rs) ->
  Forall in_unit rs /\ cache_ok st'.
Proof.
  intros Hc Hs.
  destruct (resolve_mode mode q) as [m | e] eqn:Hres.
  2: { unfold search in Hs. rewrite Hres in Hs. discriminate. }
  pose proof (validate_spec m q) as Hv.
  destruct (validate m q) as [[] | e] eqn:Hval.
  2: { unfold search in Hs. rewrite Hres, Hval in Hs. discriminate. }
  destruct (search_body st q mode use_cache m Hres Hval Hc) as [H1 H2].
  rewrite Hs in H1, H2. simpl in H1, H2. tauto.
Qed.

(** [search] fails with its own [ValueError] exactly on invalid arguments. *)
Lemma search_fails_iff st q mode use_cache :
  cache_ok st ->
  fails_invalid (snd (search vector_engine fts_engine hybrid_engine
                             st q mode use_cache))
  <-> invalid_arguments mode q.
Proof.
  intros Hc. unfold fails_invalid, invalid_arguments.
  pose proof (resolve_mode_spec mode q) as Hr.
  destruct (resolve_mode mode q) as [m | e] eqn:Hres.
  2: { unfold search. rewrite Hres. simpl.
       destruct Hr as ((msg & ->) & Hr). split; [tauto | eauto]. }
  pose proof (validate_spec m q) as Hv.
  destruct (validate m q) as [[] | e] eqn:Hval.
  2: { unfold search. rewrite Hres, Hval. simpl.
       destruct Hv as ((msg & ->) & Hv). split; [| eauto].
       intros _. right. exists m. tauto. }
  destruct (search_body st q mode use_cache m Hres Hval Hc) as [_ H2].
  destruct Hv as [Hv1 Hv2]. split.
  - intros [msg Hm]. rewrite Hm in H2. right. exists m. tauto.
  - intros [Hbad | (m' & [= <-] & [Hbad | [Hbad | Hbad]])]; try tauto.
    destruct (snd (search _ _ _ st q mode use_cache)) as [rs | []];
      try tauto; eauto.
Qed.

End Engines2.



(** C10: a [SearchResult] exists only with a score in [0,1]; in every
    score type the converted results carry such scores, and a keyword or
    hybrid row whose native score lies outside [0,1] makes the conversion
    raise pydantic's validation error; so every result [search] returns,
    whatever the mode, has its score in [0,1]. *)
Theorem C10_search_result_score_validated :
  (forall c s r, SearchResult_new c s = Ok r -> in_unit r)
  /\ (forall c s, ~ (0 <= s <= 1)%Q ->
        SearchResult_new c s = Err ValidationError)
  /\ (forall rows st rs,
        _convert_results rows st = Ok rs -> Forall in_unit rs)
  /\ (forall rows st row s,
        st = fts \/ st = hybrid ->
        In row rows -> _score row = Some s -> ~ (0 <= s <= 1)%Q ->
        _convert_results rows st = Err ValidationError)
  /\ (forall ve fe he st q mode use_cache st' rs,
        cache_ok st ->
        search ve fe he st q mode use_cache = (st', Ok rs) ->
        Forall in_unit rs /\ cache_ok st').
Proof.
  split; [| split; [| split; [| split]]].
  - intros c s r H. now apply SearchResult_new_ok in H.
  - intros c s H. unfold SearchResult_new.
    destruct (score_ok s) eqn:E; [| reflexivity].
    now apply score_ok_iff in E.
  - apply convert_results_unit.
  - intros rows st row s Hst Hin Hs Hbad.
    destruct (_convert_results rows st) as [rs | e] eqn:E.
    + exfalso. revert rs E.
      induction rows as [| x rows IH]; intros rs E; [contradiction |].
      simpl in E. unfold bind in E.
      destruct (convert_row st x) as [r |] eqn:Er; [| discriminate].
      destruct (_convert_results rows st) as [rs' |]; [| discriminate].
      destruct Hin as [-> | Hin]; [| eauto].
      apply Hbad. unfold convert_row, bind in Er.
      destruct Hst as [-> | ->];
        (destruct (CodeChunk_new (row_fields row)); [| discriminate]);
        apply SearchResult_new_ok in Er as [-> Hu];
        unfold in_unit in Hu; cbn [score] in Hu; now rewrite Hs in Hu.
    + apply convert_results_err, conversion_error_text in E as ->;
        [reflexivity | destruct Hst as [-> | ->]; discriminate].
  - intros ve fe he st q mode use_cache st' rs Hc Hs.
    now apply (search_scores ve fe he st q mode use_cache st' rs Hc).
Qed.

Lemma C10_search_result_score_validated_witness :
  SearchResult_new (demo_chunk (L "a.py")) (3 # 1) = Err ValidationError
  /\ _convert_results [mkRow (demo_chunk (L "a.py")) None (Some (7 # 2)%Q)] fts
     = Err ValidationError
  /\ Forall in_unit [mkResult (demo_chunk (L "a.py")) (1 # 2)%Q].
Proof.
  destruct C10_search_result_score_validated
    as (_ & Hnew & _ & Hconv & Hsearch).
  split; [| split].
  - apply Hnew. intros [_ H]. apply Qle_bool_iff in H. discriminate H.
  - apply (Hconv _ fts (mkRow (demo_chunk (L "a.py")) None (Some (7 # 2)%Q))
             (7 # 2)%Q);
      [now left | now left | reflexivity
       | intros [_ H]; apply Qle_bool_iff in H; discriminate H].
  - apply (Hsearch demo_vector_engine demo_text_engine demo_text_engine
             (new_store [demo_chunk (L "a.py")]) (text_query (L "foo"))
             (Some (L "fts")) true
             (mkStore true 100 [demo_chunk (L "a.py")]
                [((text_query (L "foo"), L "fts"),
                  [mkResult (demo_chunk (L "a.py")) (1 # 2)%Q])]));
      [constructor | reflexivity].
Defined.

(** C7 (as amended): an explicit mode is used as given; without one the
    mode is hybrid when text and vector are both non-empty, vector when
    only the vector is, fts when only the text is; and [search] fails with
    its [ValueError] exactly when no mode is given and text and vector are
    both absent or empty, or the resolved mode lacks its input (vector
    without a vector, fts or hybrid without text), or the mode is none of
    the three names. *)
Theorem C7_mode_resolution_and_validation
  ve fe he (st : VectorStore) (q : Query) (mode : option str)
  (use_cache : bool) :
  cache_ok st ->
  (forall m, mode = Some m -> resolve_mode mode q = Ok m)
  /\ (mode = None -> opt_truthy (query_text q) = true ->
      opt_truthy (query_vector q) = true ->
      resolve_mode mode q = Ok (L "hybrid"))
  /\ (mode = None -> opt_truthy (query_text q) = false ->
      opt_truthy (query_vector q) = true ->
      resolve_mode mode q = Ok (L "vector"))
  /\ (mode = None -> opt_truthy (query_text q) = true ->
      opt_truthy (query_vector q) = false ->
      resolve_mode mode q = Ok (L "fts"))
  /\ (fails_invalid (snd (search ve fe he st q mode use_cache))
      <-> invalid_arguments mode q).
Proof.
  intros Hc. repeat split.
  - now intros m ->.
  - intros -> Ht Hv. unfold resolve_mode. now rewrite Ht, Hv.
  - intros -> Ht Hv. unfold resolve_mode. now rewrite Ht, Hv.
  - intros -> Ht Hv. unfold resolve_mode. now rewrite Ht, Hv.
  - now apply search_fails_iff.
  - now apply search_fails_iff.
Qed.

Lemma C7_mode_resolution_and_validation_witness :
  resolve_mode None (text_query (L "foo")) = Ok (L "fts")
  /\ fails_invalid (snd (demo_search (new_store []) (text_query (L "foo"))
                                     (Some (L "vector")) true)).
Proof.
  destruct (C7_mode_resolution_and_validation
              demo_vector_engine demo_text_engine demo_text_engine
              (new_store []) (text_query (L "foo")) None true)
    as (_ & _ & _ & Hfts & _); [constructor |].
  destruct (C7_mode_resolution_and_validation
              demo_vector_engine demo_text_engine demo_text_engine
              (new_store []) (text_query (L "foo")) (Some (L "vector")) true)
    as (_ & _ & _ & _ & Hiff); [constructor |].
  split.
  - apply Hfts; reflexivity.
  - apply Hiff. right. exists (L "vector"). split; [reflexivity |].
    left. split; reflexivity.
Defined.

(** C7 as stated fails in the "only if": an unknown mode name is refused
    with a [ValueError] although no required input is missing, and an
    empty text passed without a mode is refused although it was passed. *)
Lemma C7_invalid_mode_counterexample :
  (fails_invalid (snd (demo_search (new_store []) (text_query (L "foo"))
                                   (Some (L "bogus")) true))
   /\ ~ required_input_missing (Some (L "bogus")) (text_query (L "foo")))
  /\ (fails_invalid (snd (demo_search (new_store []) (text_query [])
                                      None true))
      /\ ~ required_input_missing None (text_query [])).
Proof.
  split; split.
  - eexists. vm_compute. reflexivity.
  - intros [(H & _) | (m & [= <-] & [(H & _) | ([H | H] & _)])];
      discriminate.
  - eexists. vm_compute. reflexivity.
  - intros [(_ & H & _) | (m & H & _)]; discriminate.
Qed.

(** C2 fails on the code for deletions: [add_chunks] clears the query
    cache, [delete_by_path] and [delete_by_branch] leave it as it is. After
    a keyword search has been cached and the file's rows deleted, the same
    search answers from the cache with the deleted chunk, while the search
    without the cache finds nothing. *)
Theorem C2_delete_keeps_stale_cache :
  (forall st c cs,
     cache (add_chunks st (c :: cs))
     = if cache_enabled st then [] else cache st)
  /\ (forall st p, cache (fst (delete_by_path st p)) = cache st)
  /\ (forall st b, cache (fst (delete_by_branch st b)) = cache st)
  /\ (let st0 := new_store [demo_chunk (L "a.py")] in
      let q := text_query (L "foo") in
      let st1 := fst (demo_search st0 q None true) in
      let st2 := fst (delete_by_path st1 (L "a.py")) in
      table st2 = []
      /\ snd (demo_search st2 q None true)
         = Ok [mkResult (demo_chunk (L "a.py")) (1 # 2)%Q]
      /\ snd (demo_search st2 q None false) = Ok []).
Proof.
  split; [| split; [| split]].
  - intros st c cs. unfold add_chunks, clear_cache.
    cbn [set_table cache_enabled].
    destruct (cache_enabled st); reflexivity.
  - reflexivity.
  - reflexivity.
  - vm_compute. auto.
Qed.

End StoreFacts.

(** ** Result enhancer: de-duplication *)

Module DedupFacts.

Import Models Enhancer StoreFacts.

(** *** Overlap of two line ranges *)

Lemma overlap_sym (s1 e1 s2 e2 : Z) :
  _calculate_overlap s1 e1 s2 e2 = _calculate_overlap s2 e2 s1 e1.
Proof.
  unfold _calculate_overlap.
  now rewrite (Z.max_comm s1 s2), (Z.min_comm e1 e2),
    (Z.min_comm (e1 - s1 + 1) (e2 - s2 + 1)).
Qed.

Lemma overlap_of_sym (a b : SearchResult) : overlap_of a b = overlap_of b a.
Proof. apply overlap_sym. Qed.

Lemma overlap_disjoint (s1 e1 s2 e2 : Z) :
  e1 < s2 \/ e2 < s1 -> _calculate_overlap s1 e1 s2 e2 = 0%Q.
Proof.
  intros H. unfold _calculate_overlap.
  destruct (Z.gtb_spec (Z.max s1 s2) (Z.min e1 e2)); [reflexivity | lia].
Qed.

Lemma overlap_formula (s1 e1 s2 e2 : Z) :
  s1 <= e1 -> s2 <= e2 -> Z.max s1 s2 <= Z.min e1 e2 ->
  _calculate_overlap s1 e1 s2 e2 =
  (inject_Z (Z.min e1 e2 - Z.max s1 s2 + 1)
   / inject_Z (Z.min (e1 - s1 + 1) (e2 - s2 + 1)))%Q.
Proof.
  intros H1 H2 H. unfold _calculate_overlap.
  destruct (Z.gtb_spec (Z.max s1 s2) (Z.min e1 e2)); [lia |].
  destruct (Z.gtb_spec (Z.min (e1 - s1 + 1) (e2 - s2 + 1)) 0); [| lia].
  reflexivity.
Qed.

Lemma overlap_inside (s1 e1 s2 e2 : Z) :
  s1 <= s2 -> s2 <= e2 -> e2 <= e1 ->
  (_calculate_overlap s1 e1 s2 e2 == 1)%Q.
Proof.
  intros H1 H2 H3. rewrite overlap_formula by lia.
  replace (Z.min e1 e2 - Z.max s1 s2 + 1) with (e2 - s2 + 1) by lia.
  replace (Z.min (e1 - s1 + 1) (e2 - s2 + 1)) with (e2 - s2 + 1) by lia.
  apply Qmult_inv_r. unfold Qeq. simpl. lia.
Qed.

(** *** Stable sort by descending score *)

Lemma insert_desc_perm (r : SearchResult) (l : list SearchResult) :
  Permutation (insert_desc r l) (r :: l).
Proof.
  induction l as [| x l IH]; simpl; [reflexivity |].
  destruct (Qle_bool (score x) (score r)); [reflexivity |].
  rewrite IH. apply perm_swap.
Qed.

Lemma sort_desc_perm (l : list SearchResult) : Permutation (sort_desc l) l.
Proof.
  induction l as [| r l IH]; simpl; [reflexivity |].
  rewrite insert_desc_perm. now constructor.
Qed.

Lemma insert_desc_sorted (r : SearchResult) (l : list SearchResult) :
  StronglySorted desc l -> StronglySorted desc (insert_desc r l).
Proof.
  induction 1 as [| x l Hs IH Hx]; simpl.
  - repeat constructor.
  - destruct (Qle_bool (score x) (score r)) eqn:E.
    + apply Qle_bool_iff in E. constructor; [now constructor |].
      constructor; [exact E |].
      eapply Forall_impl; [| exact Hx].
      intros y Hy. unfold desc in *. now apply Qle_trans with (score x).
    + constructor; [exact IH |].
      eapply Permutation_Forall; [symmetry; apply insert_desc_perm |].
      constructor; [| exact Hx].
      unfold desc. apply Qlt_le_weak, Qnot_le_lt.
      intros H. apply Qle_bool_iff in H. congruence.
Qed.

Lemma sort_desc_sorted (l : list SearchResult) :
  StronglySorted desc (sort_desc l).
Proof.
  induction l; simpl; [constructor | now apply insert_desc_sorted].
Qed.

(** *** The greedy loop over one file's results *)

Lemma keep_loop_app thr (l1 l2 kept : list SearchResult) :
  keep_loop thr (l1 ++ l2) kept = keep_loop thr l2 (keep_loop thr l1 kept).
Proof.
  revert kept. induction l1 as [| r l1 IH]; intros kept; simpl;
    [reflexivity |].
  destruct (overlaps_kept thr r kept); apply IH.
Qed.

Lemma overlaps_kept_false thr r kept :
  overlaps_kept thr r kept = false <->
  forall k, In k kept -> (overlap_of r k < thr)%Q.
Proof.
  unfold overlaps_kept. split.
  - intros H k Hk. apply Qnot_le_lt. intros Hle.
    apply Qle_bool_iff in Hle.
    assert (existsb (fun x => Qle_bool thr (overlap_of r x)) kept = true)
      by (apply existsb_exists; eauto).
    congruence.
  - intros H.
    destruct (existsb _ kept) eqn:E; [| reflexivity].
    apply existsb_exists in E as (k & Hk & Hle).
    apply Qle_bool_iff in Hle. apply H in Hk.
    exfalso. now apply (Qlt_not_le _ _ Hk).
Qed.

Lemma keep_loop_subset thr (l kept : list SearchResult) r :
  In r (keep_loop thr l kept) -> In r kept \/ In r l.
Proof.
  revert kept. induction l as [| x l IH]; intros kept; simpl; [auto |].
  destruct (overlaps_kept thr x kept); intros H; apply IH in H.
  - tauto.
  - rewrite in_app_iff in H. simpl in H. tauto.
Qed.

(** No two kept results of a file overlap by the threshold or more. *)
Lemma keep_loop_apart thr (l kept : list SearchResult) :
  ForallOrdPairs (apart thr) kept ->
  ForallOrdPairs (apart thr) (keep_loop thr l kept).
Proof.
  revert kept. induction l as [| r l IH]; intros kept Hk; simpl;
    [exact Hk |].
  destruct (overlaps_kept thr r kept) eqn:E; apply IH; [exact Hk |].
  rewrite overlaps_kept_false in E.
  clear IH. induction Hk as [| k kept Hk1 Hk2 IHk]; simpl.
  - repeat constructor.
  - constructor.
    + apply Forall_app. split; [exact Hk1 |].
      constructor; [| constructor].
      unfold apart. rewrite overlap_of_sym. apply E. now left.
    + apply IHk. intros k' Hk'. apply E. now right.
Qed.

(** *** Grouping by path *)

Lemma group_add_keys_in r acc :
  In (path (chunk r)) (map fst acc) ->
  map fst (group_add r acc) = map fst acc.
Proof.
  induction acc as [| [p rs] acc IH]; simpl; [contradiction |].
  destruct (str_eqb_spec p (path (chunk r))) as [-> | Hne]; [reflexivity |].
  intros [H | H]; [congruence |]. simpl. now rewrite IH.
Qed.

Lemma group_add_keys_new r acc :
  ~ In (path (chunk r)) (map fst acc) ->
  map fst (group_add r acc) = map fst acc ++ [path (chunk r)].
Proof.
  induction acc as [| [p rs] acc IH]; simpl; [reflexivity |].
  intros H.
  destruct (str_eqb_spec p (path (chunk r))) as [-> | Hne]; [tauto |].
  simpl. rewrite IH; tauto.
Qed.

Lemma group_add_In r acc p rs :
  NoDup (map fst acc) ->
  In (p, rs) (group_add r acc) ->
  (p <> path (chunk r) /\ In (p, rs) acc)
  \/ (p = path (chunk r) /\
      ((exists rs0, In (p, rs0) acc /\ rs = rs0 ++ [r])
       \/ (~ In p (map fst acc) /\ rs = [r]))).
Proof.
  induction acc as [| [p0 rs0] acc IH]; simpl; intros Hnd H.
  - destruct H as [[= <- <-] | []]. right. split; [reflexivity |]. auto.
  - inversion Hnd as [| ? ? Hp0 Hnd']; subst.
    destruct (str_eqb_spec p0 (path (chunk r))) as [-> | Hne].
    + destruct H as [[= <- <-] | H].
      * right. split; [reflexivity |]. left. eauto.
      * left. split; [| now right].
        intros ->. apply Hp0. apply in_map_iff. now exists (path (chunk r), rs).
    + destruct H as [[= <- <-] | H].
      * left. split; [exact Hne | now left].
      * destruct (IH Hnd' H) as [[H1 H2] | [H1 [(x & H2 & H3) | [H2 H3]]]].
        -- left. split; [exact H1 | now right].
        -- right. split; [exact H1 |]. left. exists x. split; [now right | exact H3].
        -- right. split; [exact H1 |]. right. split; [| exact H3].
           intros [E | E]; [congruence | tauto].
Qed.

Lemma same_path_iff p r : same_path p r = true <-> path (chunk r) = p.
Proof. unfold same_path. apply str_eqb_eq. Qed.

Lemma filter_snoc {A} (f : A -> bool) (l : list A) (x : A) :
  filter f (l ++ [x]) = filter f l ++ (if f x then [x] else []).
Proof. now rewrite filter_app. Qed.

Lemma same_path_false p r : path (chunk r) <> p -> same_path p r = false.
Proof.
  intros H. destruct (same_path p r) eqn:E; [| reflexivity].
  now apply same_path_iff in E.
Qed.

Lemma grouped_step l acc r :
  grouped l acc -> grouped (l ++ [r]) (group_add r acc).
Proof.
  intros (Hnd & Hgr & Hcov).
  assert (Hkeys : ~ In (path (chunk r)) (map fst acc) ->
                  filter (same_path (path (chunk r))) l = []).
  { intros Hn. destruct (filter _ l) as [| x xs] eqn:E; [reflexivity |].
    assert (Hx : In x (filter (same_path (path (chunk r))) l))
      by (rewrite E; now left).
    apply filter_In in Hx as [Hx Hp]. apply same_path_iff in Hp.
    apply Hcov in Hx. congruence. }
  split; [| split].
  - destruct (in_dec (list_eq_dec ascii_dec) (path (chunk r)) (map fst acc))
      as [Hin | Hn].
    + now rewrite group_add_keys_in.
    + rewrite group_add_keys_new by exact Hn.
      eapply Permutation_NoDup;
        [apply Permutation_cons_append | now constructor].
  - intros p rs H. rewrite filter_snoc.
    destruct (group_add_In _ _ _ _ Hnd H)
      as [[H1 H2] | [-> [(rs0 & H2 & ->) | [H2 ->]]]].
    + destruct (Hgr _ _ H2) as [-> Hne].
      rewrite same_path_false by congruence. now rewrite app_nil_r.
    + destruct (Hgr _ _ H2) as [-> _].
      rewrite (proj2 (same_path_iff _ _) eq_refl).
      split; [reflexivity |]. now destruct (filter _ l).
    + rewrite (Hkeys H2), (proj2 (same_path_iff _ _) eq_refl).
      split; [reflexivity | discriminate].
  - intros x Hx. apply in_app_iff in Hx as [Hx | [<- | []]].
    + apply Hcov in Hx.
      destruct (in_dec (list_eq_dec ascii_dec) (path (chunk r)) (map fst acc))
        as [Hin | Hn].
      * now rewrite group_add_keys_in.
      * rewrite group_add_keys_new by exact Hn. apply in_app_iff. now left.
    + destruct (in_dec (list_eq_dec ascii_dec) (path (chunk r)) (map fst acc))
        as [Hin | Hn].
      * now rewrite group_add_keys_in.
      * rewrite group_add_keys_new by exact Hn. apply in_app_iff.
        right. now left.
Qed.

Lemma grouped_fold rest l acc :
  grouped l acc ->
  grouped (l ++ rest) (fold_left (fun by_file r => group_add r by_file) rest acc).
Proof.
  revert l acc. induction rest as [| r rest IH]; intros l acc H; simpl.
  - now rewrite app_nil_r.
  - replace (l ++ r :: rest) with ((l ++ [r]) ++ rest)
      by (now rewrite <- app_assoc).
    apply IH. now apply grouped_step.
Qed.

Lemma group_by_file_grouped results : grouped results (group_by_file results).
Proof.
  apply (grouped_fold results [] []).
  split; [constructor |]. split; intros; contradiction.
Qed.

Lemma dedup_file_subset thr g r : In r (dedup_file thr g) -> In r g.
Proof.
  intros H. apply keep_loop_subset in H as [[] | H].
  eapply Permutation_in; [apply sort_desc_perm | exact H].
Qed.

(** Whether a result survives depends on the results of its own path only. *)
Lemma deduplicate_In results thr r :
  In r (deduplicate results thr) <->
  In r (dedup_file thr (filter (same_path (path (chunk r))) results)).
Proof.
  destruct (group_by_file_grouped results) as (_ & Hgr & Hcov).
  destruct results as [| r0 results].
  { simpl. tauto. }
  unfold deduplicate.
  set (rs := r0 :: results) in *.
  split; intros H.
  - eapply Permutation_in in H; [| apply sort_desc_perm].
    apply in_flat_map in H as ([p g] & Hg & H). simpl in H.
    destruct (Hgr _ _ Hg) as [-> _].
    pose proof (dedup_file_subset _ _ _ H) as Hin.
    apply filter_In in Hin as [_ Hp]. apply same_path_iff in Hp.
    now rewrite Hp.
  - eapply Permutation_in; [symmetry; apply sort_desc_perm |].
    pose proof (dedup_file_subset _ _ _ H) as Hin.
    apply filter_In in Hin as [Hin _].
    apply Hcov, in_map_iff in Hin as ([p g] & Hp & Hg). simpl in Hp. subst p.
    apply in_flat_map. exists (path (chunk r), g). split; [exact Hg |].
    simpl. now destruct (Hgr _ _ Hg) as [-> _].
Qed.

Lemma keep_loop_snoc thr l r :
  let kept := keep_loop thr l [] in
  ((forall k, In k kept -> apart thr r k) /\
   keep_loop thr (l ++ [r]) [] = kept ++ [r])
  \/ ((exists k, In k kept /\ (thr <= overlap_of r k)%Q) /\
      keep_loop thr (l ++ [r]) [] = kept).
Proof.
  intros kept. rewrite keep_loop_app. fold kept. simpl.
  destruct (overlaps_kept thr r kept) eqn:E.
  - right. split; [| reflexivity].
    apply existsb_exists in E as (k & Hk & Hle).
    apply Qle_bool_iff in Hle. eauto.
  - left. split; [| reflexivity]. now apply overlaps_kept_false.
Qed.

(** C4: the overlap of two ranges is 0 when they are disjoint, the
    intersection length over the length of the smaller range when they
    meet, and 1 when one lies inside the other; a result is in the output
    iff it survives the greedy pass over the results of its own path; that
    pass runs over the group sorted by descending score and keeps a result
    iff its overlap with every result kept before it is below the
    threshold, so no two kept results of a path overlap by the threshold
    or more; two results of one path that do collapse to the higher-scoring
    one; two results of different paths both stay; the output is sorted by
    descending score. *)
Theorem C4_deduplicate :
  (forall s1 e1 s2 e2,
     s1 <= e1 -> s2 <= e2 ->
     (e1 < s2 \/ e2 < s1 -> _calculate_overlap s1 e1 s2 e2 = 0%Q) /\
     (Z.max s1 s2 <= Z.min e1 e2 ->
      _calculate_overlap s1 e1 s2 e2 =
      (inject_Z (Z.min e1 e2 - Z.max s1 s2 + 1)
       / inject_Z (Z.min (e1 - s1 + 1) (e2 - s2 + 1)))%Q) /\
     ((s1 <= s2 /\ e2 <= e1) \/ (s2 <= s1 /\ e1 <= e2) ->
      (_calculate_overlap s1 e1 s2 e2 == 1)%Q))
  /\ (forall results thr r,
        In r (deduplicate results thr) <->
        In r (dedup_file thr (filter (same_path (path (chunk r))) results)))
  /\ (forall thr g,
        dedup_file thr g = keep_loop thr (sort_desc g) [] /\
        Permutation (sort_desc g) g /\
        StronglySorted desc (sort_desc g) /\
        ForallOrdPairs (apart thr) (dedup_file thr g))
  /\ (forall thr l r,
        let kept := keep_loop thr l [] in
        ((forall k, In k kept -> apart thr r k) /\
         keep_loop thr (l ++ [r]) [] = kept ++ [r])
        \/ ((exists k, In k kept /\ (thr <= overlap_of r k)%Q) /\
            keep_loop thr (l ++ [r]) [] = kept))
  /\ (forall thr r1 r2,
        path (chunk r1) = path (chunk r2) ->
        (thr <= overlap_of r1 r2)%Q ->
        deduplicate [r1; r2] thr
        = [if Qle_bool (score r2) (score r1) then r1 else r2])
  /\ (forall thr r1 r2,
        path (chunk r1) <> path (chunk r2) ->
        Permutation (deduplicate [r1; r2] thr) [r1; r2])
  /\ (forall results thr, StronglySorted desc (deduplicate results thr)).
Proof.
  split; [| split; [| split; [| split; [| split; [| split]]]]].
  - intros s1 e1 s2 e2 H1 H2. split; [| split].
    + apply overlap_disjoint.
    + now apply overlap_formula.
    + intros [[Ha Hb] | [Ha Hb]].
      * now apply overlap_inside.
      * rewrite overlap_sym. now apply overlap_inside.
  - apply deduplicate_In.
  - intros thr g. split; [reflexivity |].
    split; [apply sort_desc_perm |]. split; [apply sort_desc_sorted |].
    apply keep_loop_apart. constructor.
  - apply keep_loop_snoc.
  - intros thr r1 r2 Hp Hov.
    unfold deduplicate, group_by_file. cbn [fold_left group_add].
    rewrite Hp, str_eqb_refl. cbn [app flat_map snd].
    unfold dedup_file. cbn [sort_desc insert_desc].
    assert (H12 : Qle_bool thr (overlap_of r1 r2) = true)
      by now apply Qle_bool_iff.
    assert (H21 : Qle_bool thr (overlap_of r2 r1) = true)
      by now rewrite overlap_of_sym.
    destruct (Qle_bool (score r2) (score r1));
      cbn [keep_loop overlaps_kept existsb app orb];
      rewrite ?H12, ?H21; reflexivity.
  - intros thr r1 r2 Hp.
    unfold deduplicate, group_by_file. cbn [fold_left group_add].
    destruct (str_eqb_spec (path (chunk r1)) (path (chunk r2)));
      [contradiction |].
    cbn [flat_map snd]. unfold dedup_file.
    cbn [sort_desc insert_desc keep_loop overlaps_kept existsb app].
    apply (sort_desc_perm [r1; r2]).
  - intros [| r results] thr; [constructor | apply sort_desc_sorted].
Qed.

Lemma C4_deduplicate_witness :
  (_calculate_overlap 1 5 10 15 = 0%Q
   /\ (_calculate_overlap 1 20 5 10 == 1)%Q)
  /\ deduplicate [demo_result (L "test.py") 1 10 (9 # 10);
                  demo_result (L "test.py") 5 15 (8 # 10)] (1 # 2)
     = [demo_result (L "test.py") 1 10 (9 # 10)]
  /\ Permutation
       (deduplicate [demo_result (L "a.py") 1 10 (8 # 10);
                     demo_result (L "b.py") 1 10 (9 # 10)] (1 # 2))
       [demo_result (L "a.py") 1 10 (8 # 10);
        demo_result (L "b.py") 1 10 (9 # 10)].
Proof.
  destruct C4_deduplicate as (Hov & _ & _ & _ & Hsame & Hdiff & _).
  split; [split | split].
  - apply (Hov 1 5 10 15); lia.
  - apply (Hov 1 20 5 10); lia.
  - apply (Hsame (1 # 2)%Q (demo_result (L "test.py") 1 10 (9 # 10))
                 (demo_result (L "test.py") 5 15 (8 # 10)));
      [reflexivity | apply Qle_bool_iff; reflexivity].
  - apply Hdiff. discriminate.
Defined.

End DedupFacts.

(** ** Result enhancer: context expansion *)

Module ExpandFacts.

Import Models Enhancer StoreFacts.

Lemma same_frame_refl (r : SearchResult) : same_frame r r.
Proof. repeat split. Qed.

Section Files.

Variable fs : str -> str -> file_state.

(** One result: the frame is kept; the range and text change exactly when
    the file was read and the clamped end line is a valid line number. *)
Lemma expand_one_spec (lines_before lines_after : Z) (root : str)
  (r : SearchResult) :
  result_ok r ->
  let r' := expand_one fs lines_before lines_after root r in
  same_frame r r' /\
  match fs root (path (chunk r)) with
  | Lines lines =>
      if 1 <=? Z.min (len lines) (end_line (chunk r) + lines_after)
      then expanded_over lines lines_before lines_after r r'
      else r' = r
  | _ => r' = r
  end.
Proof.
  intros [Hf Hs]. unfold expand_one.
  destruct (fs root (path (chunk r))) as [| | lines];
    try (split; [apply same_frame_refl | reflexivity]).
  unfold bind, CodeChunk_new, chunk_fields_ok in *. cbn [vector start_line end_line].
  apply andb_true_iff in Hf as [Hf _]. apply andb_true_iff in Hf as [Hv _].
  rewrite Hv.
  replace (1 <=? Z.max 1 (start_line (chunk r) - lines_before)) with true
    by (symmetry; apply Z.leb_le; lia).
  cbn [andb].
  destruct (1 <=? Z.min (len lines) (end_line (chunk r) + lines_after)).
  - unfold SearchResult_new. rewrite Hs.
    split; [repeat split |]. unfold expanded_over. cbn. auto.
  - split; [apply same_frame_refl | reflexivity].
Qed.

(** C8 (as amended): [expand_context] returns one result per input, in
    order; each keeps its path, language, chunk type, name, vector, file
    hash, timestamp, branch and score; when the file is read and the
    clamped end line [min(file_line_count, end_line + after)] is at least
    1, the range becomes [max(1, start_line - before) .. that end line]
    and the text the lines of that range; when the file is missing or
    unreadable, or no root is given, the original result is returned. *)
Theorem C8_expand_context_frame
  (results : list SearchResult) (lines_before lines_after : Z)
  (project_root : option str) :
  Forall result_ok results ->
  let out := expand_context fs results lines_before lines_after project_root in
  length out = length results /\
  forall i r, nth_error results i = Some r ->
    exists r', nth_error out i = Some r' /\ same_frame r r' /\
      match project_root with
      | None => r' = r
      | Some root =>
          match fs root (path (chunk r)) with
          | Lines lines =>
              if 1 <=? Z.min (len lines) (end_line (chunk r) + lines_after)
              then expanded_over lines lines_before lines_after r r'
              else r' = r
          | _ => r' = r
          end
      end.
Proof.
  intros Hok out. subst out. unfold expand_context.
  destruct project_root as [root |].
  - assert (E : match results with
                | [] => results
                | _ :: _ => map (expand_one fs lines_before lines_after root)
                                results
                end = map (expand_one fs lines_before lines_after root) results)
      by now destruct results.
    rewrite E. split; [apply length_map |].
    intros i r Hi. rewrite nth_error_map, Hi. simpl.
    eexists. split; [reflexivity |].
    apply expand_one_spec.
    eapply Forall_forall; [exact Hok | eapply nth_error_In, Hi].
  - assert (E : match results with [] => results | _ :: _ => results end
                = results) by now destruct results.
    rewrite E. split; [reflexivity |].
    intros i r Hi. exists r. split; [exact Hi |].
    split; [apply same_frame_refl | reflexivity].
Qed.

End Files.

Lemma C8_expand_context_frame_witness :
  length (expand_context demo_fs [demo_result (L "test.py") 1 1 (9 # 10)]
                         10 1 (Some (L "/proj"))) = 1%nat /\
  exists r',
    nth_error (expand_context demo_fs
                 [demo_result (L "test.py") 1 1 (9 # 10)]
                 10 1 (Some (L "/proj"))) 0 = Some r' /\
    same_frame (demo_result (L "test.py") 1 1 (9 # 10)) r' /\
    expanded_over [L "line 1" ++ [NL]; L "line 2" ++ [NL]; L "line 3"]
                  10 1 (demo_result (L "test.py") 1 1 (9 # 10)) r'.
Proof.
  destruct (C8_expand_context_frame demo_fs
              [demo_result (L "test.py") 1 1 (9 # 10)] 10 1
              (Some (L "/proj")))
    as [Hlen Hnth].
  - repeat constructor.
  - split; [exact Hlen |].
    exact (Hnth 0%nat (demo_result (L "test.py") 1 1 (9 # 10)) eq_refl).
Defined.

(** C8 as stated fails on a readable file without lines: the clamped end
    line is 0, the expanded chunk is refused by the model and the original
    result, with its old range, is kept. *)
Lemma C8_empty_file_counterexample :
  demo_fs (L "/proj") (L "empty.py") = Lines [] /\
  expand_context demo_fs [demo_result (L "empty.py") 1 1 (9 # 10)] 3 3
                 (Some (L "/proj"))
  = [demo_result (L "empty.py") 1 1 (9 # 10)] /\
  ~ expanded_over [] 3 3 (demo_result (L "empty.py") 1 1 (9 # 10))
                  (demo_result (L "empty.py") 1 1 (9 # 10)).
Proof.
  split; [reflexivity |]. split; [reflexivity |].
  intros (_ & H & _). vm_compute in H. discriminate.
Qed.

End ExpandFacts.

(** ** Incremental indexing *)

Module IndexerFacts.

Import Models Store Indexer StoreFacts.

Lemma add_chunks_table (st : VectorStore) (cs : list CodeChunk) :
  table (add_chunks st cs) = table st ++ cs.
Proof.
  unfold add_chunks, clear_cache. destruct cs as [| c cs].
  - now rewrite app_nil_r.
  - cbn [set_table cache_enabled]. now destruct (cache_enabled st).
Qed.




Section Run.

Variable detect_language : str -> str.
Variable chunk_with : str -> str -> list Fallback.chunk_data.
Variable embed_batch : list str -> option (list (list Q)).
Variable current_branch : option str.
Variable now : Q.






End Run.



End IndexerFacts.

(** ** Store: deletion, lookup and the query cache *)

Module StoreExtra.

Import Models Store StoreFacts.













(** *** Statistics *)

Lemma count_of_cons k x l :
  count_of k (x :: l) = (if str_eqb k x then 1 else 0) + count_of k l.
Proof.
  unfold count_of, len. cbn [filter].
  destruct (str_eqb k x); cbn [length]; lia.
Qed.

Lemma count_of_absent k l : ~ In k l -> count_of k l = 0.
Proof.
  intros H. unfold count_of.
  replace (filter (str_eqb k) l) with (@nil str); [reflexivity |].
  induction l as [| x l IH]; [reflexivity |]. cbn [filter].
  destruct (str_eqb_spec k x) as [-> | _].
  - exfalso. apply H. now left.
  - apply IH. intros Hin. apply H. now right.
Qed.

Lemma sum_counts_skip keys x l :
  ~ In x keys -> sum_counts keys (x :: l) = sum_counts keys l.
Proof.
  unfold sum_counts. induction keys as [| k keys IH]; intros H;
    [reflexivity |].
  cbn [map fold_right]. rewrite count_of_cons, IH.
  - destruct (str_eqb_spec k x) as [-> | _]; [| lia].
    exfalso. apply H. now left.
  - intros Hin. apply H. now right.
Qed.

Lemma sum_counts_hit keys x l :
  NoDup keys -> In x keys ->
  sum_counts keys (x :: l) = sum_counts keys l + 1.
Proof.
  unfold sum_counts. induction 1 as [| k keys Hk Hnd IH]; intros Hin;
    [contradiction |].
  cbn [map fold_right]. rewrite count_of_cons.
  destruct (str_eqb_spec k x) as [-> | Hne].
  - fold (sum_counts keys (x :: l)). rewrite (sum_counts_skip _ _ _ Hk).
    unfold sum_counts. lia.
  - destruct Hin as [-> | Hin]; [congruence |]. rewrite (IH Hin). lia.
Qed.

Lemma sum_counts_total l : sum_counts (nodup str_dec l) l = len l.
Proof.
  induction l as [| x l IH]; [reflexivity |]. cbn [nodup].
  destruct (in_dec str_dec x l) as [Hin | Hn].
  - rewrite sum_counts_hit, IH.
    + unfold len. cbn [length]. lia.
    + apply NoDup_nodup.
    + now apply nodup_In.
  - unfold sum_counts. cbn [map fold_right].
    fold (sum_counts (nodup str_dec l) (x :: l)).
    rewrite sum_counts_skip by (now rewrite nodup_In).
    rewrite IH, count_of_cons, str_eqb_refl, (count_of_absent _ _ Hn).
    unfold len. cbn [length]. lia.
Qed.

Lemma filter_map_length {A B} (f : B -> bool) (g : A -> B) (l : list A) :
  length (filter f (map g l)) = length (filter (fun x => f (g x)) l).
Proof.
  induction l as [| x l IH]; [reflexivity |]. cbn [map filter].
  destruct (f (g x)); cbn [length]; now rewrite IH.
Qed.

Lemma dict_get_counts k keys l :
  dict_get k (map (fun k' => (k', len (filter (str_eqb k') l))) keys)
  = if mem k keys then Some (count_of k l) else None.
Proof.
  unfold mem. induction keys as [| k' keys IH]; [reflexivity |].
  cbn [map dict_get].
  destruct (str_eqb_spec k k') as [-> | Hne].
  - destruct (in_dec str_dec k' (k' :: keys)) as [_ | Hn]; [reflexivity |].
    exfalso. apply Hn. now left.
  - rewrite IH.
    destruct (in_dec str_dec k keys) as [Hin | Hn],
             (in_dec str_dec k (k' :: keys)) as [Hin' | Hn'];
      try reflexivity.
    + exfalso. apply Hn'. now right.
    + destruct Hin' as [-> | Hin']; [congruence | contradiction].
Qed.

(** [get_stats] on an empty table is the default [IndexStats]; otherwise
    the chunk total is the row count, the file total counts the distinct
    paths (at least one, at most the row count), each language is mapped
    to the number of its rows and those numbers add up to the chunk
    total. *)
Theorem get_stats_consistent (st : VectorStore) :
  (table st = [] -> get_stats st = IndexStats_default)
  /\ (table st <> [] ->
      total_chunks (get_stats st) = len (table st)
      /\ total_files (get_stats st)
         = len (nodup str_dec (map path (table st)))
      /\ 1 <= total_files (get_stats st) <= total_chunks (get_stats st)
      /\ (forall lang,
            dict_get lang (Models.languages (get_stats st))
            = if mem lang (map language (table st))
              then Some (len (filter (fun c => str_eqb lang (language c))
                                     (table st)))
              else None)
      /\ fold_right Z.add 0 (map snd (Models.languages (get_stats st)))
         = total_chunks (get_stats st)).
Proof.
  unfold get_stats, count_rows. split.
  - now intros ->.
  - intros Hne.
    destruct (Z.eqb_spec (len (table st)) 0) as [E | _].
    { unfold len in E. destruct (table st); [congruence | discriminate]. }
    cbn [total_chunks total_files Models.languages].
    split; [reflexivity |]. split; [reflexivity |]. split; [| split].
    + unfold len. split.
      * destruct (table st) as [| c t] eqn:Et; [congruence |].
        assert (Hin : In (path c) (nodup str_dec (map path (c :: t))))
          by (apply nodup_In; now left).
        destruct (nodup str_dec (map path (c :: t))); [contradiction |].
        cbn [length]. lia.
      * rewrite <- (length_map path (table st)).
        apply Nat2Z.inj_le, NoDup_incl_length; [apply NoDup_nodup |].
        intros x Hx. now apply nodup_In in Hx.
    + intros lang. unfold value_counts. rewrite dict_get_counts.
      unfold mem.
      destruct (in_dec str_dec lang (nodup str_dec (map language (table st))))
        as [Hin | Hn],
        (in_dec str_dec lang (map language (table st))) as [Hin' | Hn'];
        try reflexivity.
      * f_equal. unfold count_of, len. f_equal. apply filter_map_length.
      * exfalso. apply Hn'. now apply nodup_In in Hin.
      * exfalso. apply Hn. now apply nodup_In.
    + unfold value_counts. rewrite map_map. cbn [snd].
      transitivity (len (map language (table st)));
        [exact (sum_counts_total (map language (table st))) |].
      unfold len. now rewrite length_map.
Qed.

Lemma get_stats_consistent_witness :
  get_stats (new_store []) = IndexStats_default
  /\ total_files (get_stats (new_store [demo_chunk (L "a.py");
                                        demo_chunk (L "a.py")])) = 1.
Proof.
  split.
  - apply (proj1 (get_stats_consistent (new_store []))). reflexivity.
  - apply (proj1 (proj2 (proj2 (get_stats_consistent
             (new_store [demo_chunk (L "a.py"); demo_chunk (L "a.py")]))
             ltac:(discriminate)))).
Defined.

(** *** Filters *)

(** [_apply_filters] passes no condition to the engine exactly when every
    filter is absent or empty; an absent filter never contributes one. *)
Theorem apply_filters_none_iff (q : Query) :
  _apply_filters q = None <-> no_filter q.
Proof.
  unfold _apply_filters, no_filter, when, opt_truthy.
  destruct (extensions q) as [[| ? ?] |], (directories q) as [[| ? ?] |],
    (chunk_types q) as [[| ? ?] |], (Store.languages q) as [[| ? ?] |],
    (file_filter q) as [[| ? ?] |], (branch_filter q) as [[| ? ?] |];
    cbn [non_nil truthy app];
    (split;
     [ intros H; try discriminate H; repeat split; reflexivity
     | intros (H1 & H2 & H3 & H4 & H5 & H6);
       try reflexivity;
       first [discriminate H1 | discriminate H2 | discriminate H3
             | discriminate H4 | discriminate H5 | discriminate H6] ]).
Qed.

Lemma apply_filters_none_iff_witness :
  _apply_filters (text_query (L "foo")) = None.
Proof.
  apply (proj2 (apply_filters_none_iff (text_query (L "foo")))).
  repeat split; reflexivity.
Defined.

(** *** The query cache *)

Lemma list_eqb_refl {A} (eqb : A -> A -> bool) (l : list A) :
  (forall x, eqb x x = true) -> list_eqb eqb l l = true.
Proof.
  intros H. induction l as [| x l IH]; simpl; [reflexivity |].
  now rewrite H, IH.
Qed.

Lemma opt_eqb_refl {A} (eqb : A -> A -> bool) (o : option A) :
  (forall x, eqb x x = true) -> opt_eqb eqb o o = true.
Proof. intros H. destruct o; simpl; auto. Qed.

Lemma Qeq_bool_same (x : Q) : Qeq_bool x x = true.
Proof. apply Qeq_bool_iff. reflexivity. Qed.

Lemma key_eqb_refl (k : cache_key) : key_eqb k k = true.
Proof.
  unfold key_eqb, query_eqb.
  rewrite !opt_eqb_refl, !Qeq_bool_same, Z.eqb_refl, str_eqb_refl;
    try reflexivity; intros; try apply str_eqb_refl;
    apply list_eqb_refl; intros; try apply str_eqb_refl;
    apply Qeq_bool_same.
Qed.

Lemma lru_touch_length k v c :
  lru_lookup k c = Some v -> (length (lru_touch k v c) <= length c)%nat.
Proof.
  unfold lru_touch. cbn [length].
  induction c as [| [k' v'] c IH]; simpl; [discriminate |].
  destruct (key_eqb k k') eqn:E; simpl.
  - intros _. pose proof (filter_length_le
                            (fun e => negb (key_eqb k (fst e))) c). lia.
  - intros H. apply IH in H. lia.
Qed.

Lemma lru_insert_length n k v c :
  (length (lru_insert n k v c) <= Z.to_nat n)%nat.
Proof. unfold lru_insert. rewrite length_firstn. lia. Qed.

Lemma dispatch_tail ve fe he st q m t1 t2 :
  same_outcome (dispatch ve fe he st q m t1) (dispatch ve fe he st q m t2).
Proof.
  unfold dispatch, same_outcome, fails_invalid.
  destruct (str_eqb m (L "vector")); [now left |].
  destruct (str_eqb m (L "fts")); [now left |].
  destruct (str_eqb m (L "hybrid")); [now left |].
  right. eauto.
Qed.

Section Engines.

Variable ve : list CodeChunk -> list Q -> Z -> option str -> list Row.
Variable fe : list CodeChunk -> str -> Z -> option str -> option (list Row).
Variable he : list CodeChunk -> str -> Z -> option str -> option (list Row).

Lemma search_cache_enabled st q mode use_cache :
  cache_enabled (fst (search ve fe he st q mode use_cache)) = cache_enabled st.
Proof.
  unfold search.
  destruct (resolve_mode mode q) as [m |]; [| reflexivity].
  destruct (validate m q); [| reflexivity].
  destruct (cache_enabled st && use_cache); [| reflexivity].
  unfold _cached_search.
  destruct (hashable q); cbn [negb]; [| reflexivity].
  destruct (lru_lookup (q, m) (cache st)) as [v |]; [reflexivity |].
  destruct (_execute_search_impl ve fe he st q m) as [v | e];
    [reflexivity | now destruct e].
Qed.

(** [search] only reads the table and the settings, and the cache never
    grows beyond [cache_size] entries. *)
Theorem search_frame_and_cache_bound st q mode use_cache :
  table (fst (search ve fe he st q mode use_cache)) = table st
  /\ cache_enabled (fst (search ve fe he st q mode use_cache))
     = cache_enabled st
  /\ cache_size (fst (search ve fe he st q mode use_cache)) = cache_size st
  /\ ((length (cache st) <= Z.to_nat (cache_size st))%nat ->
      (length (cache (fst (search ve fe he st q mode use_cache)))
       <= Z.to_nat (cache_size st))%nat).
Proof.
  unfold search.
  destruct (resolve_mode mode q) as [m |]; [| cbn; auto].
  destruct (validate m q); [| cbn; auto].
  destruct (cache_enabled st && use_cache); [| cbn; auto].
  unfold _cached_search.
  destruct (hashable q); cbn [negb]; [| cbn; auto].
  destruct (lru_lookup (q, m) (cache st)) as [v |] eqn:Hl.
  - cbn [fst set_cache table cache_enabled cache_size cache].
    repeat split. intros Hb. apply lru_touch_length in Hl. lia.
  - destruct (_execute_search_impl ve fe he st q m) as [v | e].
    + cbn [fst set_cache table cache_enabled cache_size cache].
      repeat split. intros _. apply lru_insert_length.
    + destruct e; cbn; auto.
Qed.

(** A query that was answered through the cache is answered with the same
    list again, whatever happened to the table in between: the store may
    have lost rows through [delete_by_path], [delete_by_branch] or
    [clear_all], which leave the cache as it is. *)
Theorem cached_answer_survives st q mode st1 rs :
  cache_enabled st = true ->
  hashable q = true ->
  1 <= cache_size st ->
  search ve fe he st q mode true = (st1, Ok rs) ->
  (forall st2,
     cache st2 = cache st1 -> cache_enabled st2 = true ->
     snd (search ve fe he st2 q mode true) = Ok rs)
  /\ (forall p, snd (search ve fe he (fst (delete_by_path st1 p)) q mode true)
                = Ok rs)
  /\ (forall b, snd (search ve fe he (fst (delete_by_branch st1 b)) q mode true)
                = Ok rs)
  /\ snd (search ve fe he (clear_all st1) q mode true) = Ok rs.
Proof.
  intros Hen Hh Hsz Hs.
  pose proof (search_cache_enabled st q mode true) as Hen1.
  rewrite Hs in Hen1. cbn [fst] in Hen1. rewrite Hen in Hen1.
  assert (Hgen : forall st2,
            cache st2 = cache st1 -> cache_enabled st2 = true ->
            snd (search ve fe he st2 q mode true) = Ok rs).
  { intros st2 Hc2 Hen2. unfold search in *.
    destruct (resolve_mode mode q) as [m |]; [| discriminate].
    destruct (validate m q); [| discriminate].
    rewrite Hen in Hs. rewrite Hen2. cbn [andb] in *.
    unfold _cached_search in *. rewrite Hh in *. cbn [negb] in *.
    assert (Hhead : exists rest, cache st1 = ((q, m), rs) :: rest).
    { destruct (lru_lookup (q, m) (cache st)) as [v |].
      - injection Hs as <- <-. cbn. unfold lru_touch. eauto.
      - destruct (_execute_search_impl ve fe he st q m) as [v | e] eqn:Ee.
        + injection Hs as <- <-. cbn. unfold lru_insert.
          destruct (Z.to_nat (cache_size st)) eqn:E; [lia |].
          cbn. eauto.
        + destruct e; try discriminate.
          unfold _execute_search_impl, bind in Ee.
          destruct (dispatch ve fe he st q m []) eqn:Ed; [discriminate |].
          injection Ee as ->.
          destruct (dispatch_tail ve fe he st q m []
                      (L ". Use 'vector', 'fts', or 'hybrid'"))
            as [E | [[m1 E1] _]].
          * rewrite Ed in E. rewrite <- E in Hs. discriminate.
          * rewrite Ed in E1. discriminate. }
    destruct Hhead as [rest Hhead]. rewrite Hc2, Hhead.
    cbn [lru_lookup]. now rewrite key_eqb_refl. }
  split; [exact Hgen |]. repeat split; intros; now apply Hgen.
Qed.


(** On an empty cache the cached and the uncached search give the same
    outcome; [add_chunks] of at least one chunk empties the cache, so right
    after an insertion the cache cannot change what a search returns. *)
Theorem empty_cache_is_transparent st q mode :
  (cache st = [] ->
   same_outcome (snd (search ve fe he st q mode true))
                (snd (search ve fe he st q mode false)))
  /\ (forall c cs,
        cache_enabled st = true ->
        same_outcome
          (snd (search ve fe he (add_chunks st (c :: cs)) q mode true))
          (snd (search ve fe he (add_chunks st (c :: cs)) q mode false))).
Proof.
  assert (Hgen : forall s, cache s = [] ->
            same_outcome (snd (search ve fe he s q mode true))
                         (snd (search ve fe he s q mode false))).
  { intros s Hc. unfold search.
    destruct (resolve_mode mode q) as [m |]; [| now left].
    destruct (validate m q); [| now left].
    rewrite andb_false_r.
    destruct (cache_enabled s && true); [| now left].
    unfold _cached_search.
    destruct (hashable q); cbn [negb]; [| now left].
    rewrite Hc. cbn [lru_lookup]. unfold _execute_search_impl, bind.
    destruct (dispatch_tail ve fe he s q m []
                (L ". Use 'vector', 'fts', or 'hybrid'")) as [E | [[m1 E1] [m2 E2]]].
    - rewrite E. clear E.
      destruct (dispatch ve fe he s q m
                  (L ". Use 'vector', 'fts', or 'hybrid'")) as [v | e];
        [now left |].
      destruct e; now left.
    - rewrite E1, E2. right. unfold fails_invalid. cbn. eauto. }
  split; [apply Hgen |].
  intros c cs Hen. apply Hgen.
  unfold add_chunks, clear_cache. cbn [set_table cache_enabled].
  now rewrite Hen.
Qed.

End Engines.

Lemma search_frame_and_cache_bound_witness :
  (length (cache (fst (demo_search (new_store [demo_chunk (L "a.py")])
                                   (text_query (L "foo")) None true)))
   <= Z.to_nat 100)%nat.
Proof.
  apply (proj2 (proj2 (proj2
           (search_frame_and_cache_bound demo_vector_engine demo_text_engine
              demo_text_engine (new_store [demo_chunk (L "a.py")])
              (text_query (L "foo")) None true)))).
  cbn. lia.
Defined.

Lemma cached_answer_survives_witness :
  snd (demo_search
         (fst (delete_by_path
                 (fst (demo_search (new_store [demo_chunk (L "a.py")])
                                   (text_query (L "foo")) None true))
                 (L "a.py")))
         (text_query (L "foo")) None true)
  = Ok [mkResult (demo_chunk (L "a.py")) (1 # 2)%Q].
Proof.
  apply (proj1 (proj2
           (cached_answer_survives demo_vector_engine demo_text_engine
              demo_text_engine (new_store [demo_chunk (L "a.py")])
              (text_query (L "foo")) None
              (fst (demo_search (new_store [demo_chunk (L "a.py")])
                                (text_query (L "foo")) None true))
              [mkResult (demo_chunk (L "a.py")) (1 # 2)%Q]
              eq_refl eq_refl ltac:(cbn; lia) eq_refl))).
Defined.


Lemma empty_cache_is_transparent_witness :
  same_outcome
    (snd (demo_search (add_chunks (new_store []) [demo_chunk (L "a.py")])
                      (text_query (L "foo")) None true))
    (snd (demo_search (add_chunks (new_store []) [demo_chunk (L "a.py")])
                      (text_query (L "foo")) None false)).
Proof.
  apply (proj2 (empty_cache_is_transparent demo_vector_engine
                  demo_text_engine demo_text_engine (new_store [])
                  (text_query (L "foo")) None)).
  reflexivity.
Defined.

End StoreExtra.

(** ** Result enhancer: more on de-duplication *)

Module DedupExtra.

Import Models Store Enhancer StoreFacts DedupFacts.

Lemma overlap_unit (s1 e1 s2 e2 : Z) :
  (0 <= _calculate_overlap s1 e1 s2 e2 <= 1)%Q.
Proof.
  unfold _calculate_overlap.
  destruct (Z.gtb_spec (Z.max s1 s2) (Z.min e1 e2)) as [_ | Hov];
    [split; discriminate |].
  destruct (Z.gtb_spec (Z.min (e1 - s1 + 1) (e2 - s2 + 1)) 0) as [Hpos | _];
    [| split; discriminate].
  assert (Hd : (0 < inject_Z (Z.min (e1 - s1 + 1) (e2 - s2 + 1)))%Q)
    by (unfold Qlt; simpl; lia).
  split.
  - apply Qle_shift_div_l; [exact Hd |]. rewrite Qmult_0_l.
    unfold Qle. simpl. lia.
  - apply Qle_shift_div_r; [exact Hd |]. rewrite Qmult_1_l.
    unfold Qle. simpl. lia.
Qed.

(** The overlap of any two ranges, valid or not, lies in [0,1] and does
    not depend on the order of the two ranges. *)
Theorem overlap_unit_symmetric (s1 e1 s2 e2 : Z) :
  (0 <= _calculate_overlap s1 e1 s2 e2 <= 1)%Q
  /\ _calculate_overlap s1 e1 s2 e2 = _calculate_overlap s2 e2 s1 e1.
Proof. split; [apply overlap_unit | apply overlap_sym]. Qed.

Lemma keep_loop_grows thr l kept r :
  In r kept -> In r (keep_loop thr l kept).
Proof.
  revert kept. induction l as [| x l IH]; intros kept H; simpl; [exact H |].
  destruct (overlaps_kept thr x kept); apply IH; [exact H |].
  apply in_app_iff. now left.
Qed.

Lemma keep_loop_length thr l kept :
  (length (keep_loop thr l kept) <= length kept + length l)%nat.
Proof.
  revert kept. induction l as [| x l IH]; intros kept; simpl; [lia |].
  destruct (overlaps_kept thr x kept).
  - specialize (IH kept). lia.
  - specialize (IH (kept ++ [x])). rewrite length_app in IH. simpl in IH. lia.
Qed.

Lemma group_add_perm r acc :
  Permutation (flat_map snd (group_add r acc)) (r :: flat_map snd acc).
Proof.
  induction acc as [| [p rs] acc IH]; simpl; [reflexivity |].
  destruct (str_eqb p (path (chunk r))); simpl.
  - rewrite <- app_assoc. simpl.
    symmetry. apply Permutation_middle.
  - rewrite IH. symmetry. apply Permutation_middle.
Qed.

Lemma group_fold_perm l acc :
  Permutation
    (flat_map snd (fold_left (fun by_file r => group_add r by_file) l acc))
    (l ++ flat_map snd acc).
Proof.
  revert acc. induction l as [| r l IH]; intros acc; simpl; [reflexivity |].
  rewrite IH, group_add_perm. symmetry. apply Permutation_middle.
Qed.

Lemma group_by_file_perm results :
  Permutation (flat_map snd (group_by_file results)) results.
Proof.
  unfold group_by_file. rewrite group_fold_perm. simpl.
  now rewrite app_nil_r.
Qed.

Lemma flat_map_length_le {A B} (f g : A -> list B) (l : list A) :
  (forall x, length (f x) <= length (g x))%nat ->
  (length (flat_map f l) <= length (flat_map g l))%nat.
Proof.
  intros H. induction l as [| x l IH]; simpl; [lia |].
  rewrite !length_app. specialize (H x). lia.
Qed.

Lemma dedup_file_length thr g : (length (dedup_file thr g) <= length g)%nat.
Proof.
  unfold dedup_file.
  pose proof (keep_loop_length thr (sort_desc g) []) as H.
  rewrite (Permutation_length (sort_desc_perm g)) in H. simpl in H. lia.
Qed.

Lemma deduplicate_sub results thr r :
  In r (deduplicate results thr) -> In r results.
Proof.
  intros H. apply deduplicate_In, dedup_file_subset, filter_In in H. tauto.
Qed.

Lemma deduplicate_shorter results thr :
  (length (deduplicate results thr) <= length results)%nat.
Proof.
  destruct results as [| r0 results]; [simpl; lia |].
  unfold deduplicate.
  rewrite (Permutation_length (sort_desc_perm _)).
  rewrite <- (Permutation_length (group_by_file_perm (r0 :: results))).
  apply flat_map_length_le. intros [p g]. apply dedup_file_length.
Qed.

(** De-duplication only drops results: every result it returns is one of
    the input, and the output is no longer than the input. *)
Theorem deduplicate_only_drops results thr :
  (forall r, In r (deduplicate results thr) -> In r results)
  /\ (length (deduplicate results thr) <= length results)%nat.
Proof.
  split; [intros r; apply deduplicate_sub | apply deduplicate_shorter].
Qed.

Lemma sort_desc_head g r :
  In r g -> exists x rest, sort_desc g = x :: rest /\ In x g /\
                           (score r <= score x)%Q.
Proof.
  intros Hin.
  pose proof (sort_desc_sorted g) as Hs.
  pose proof (sort_desc_perm g) as Hp.
  destruct (sort_desc g) as [| x rest] eqn:E.
  - apply Permutation_nil in Hp. subst. contradiction.
  - exists x, rest. split; [reflexivity |]. split.
    + eapply Permutation_in; [exact Hp | now left].
    + apply (Permutation_in _ (Permutation_sym Hp)) in Hin.
      destruct Hin as [<- | Hin]; [apply Qle_refl |].
      inversion Hs as [| ? ? _ Hall]; subst.
      rewrite Forall_forall in Hall. now apply Hall.
Qed.

(** The best result of every path survives: for each input result the
    output holds a result of the same path that scores at least as high. *)
Theorem deduplicate_keeps_best results thr r :
  In r results ->
  exists r', In r' (deduplicate results thr) /\
             path (chunk r') = path (chunk r) /\
             (score r <= score r')%Q.
Proof.
  intros Hin.
  set (g := filter (same_path (path (chunk r))) results).
  assert (Hg : In r g)
    by (apply filter_In; split; [exact Hin | now apply same_path_iff]).
  destruct (sort_desc_head g r Hg) as (x & rest & Hs & Hx & Hle).
  pose proof Hx as Hx'. apply filter_In in Hx' as [_ Hp].
  apply same_path_iff in Hp.
  exists x. split; [| split; [exact Hp | exact Hle]].
  apply deduplicate_In. rewrite Hp. fold g.
  unfold dedup_file. rewrite Hs. cbn [keep_loop overlaps_kept existsb app].
  apply keep_loop_grows. now left.
Qed.

Lemma deduplicate_keeps_best_witness :
  exists r',
    In r' (deduplicate [demo_result (L "a.py") 1 10 (9 # 10);
                        demo_result (L "a.py") 5 15 (8 # 10)] (1 # 2))
    /\ path (chunk r') = L "a.py"
    /\ (8 # 10 <= score r')%Q.
Proof.
  apply (deduplicate_keeps_best
           [demo_result (L "a.py") 1 10 (9 # 10);
            demo_result (L "a.py") 5 15 (8 # 10)] (1 # 2)
           (demo_result (L "a.py") 5 15 (8 # 10))).
  right. now left.
Defined.

Lemma deduplicate_only_drops_witness :
  In (demo_result (L "a.py") 1 10 (9 # 10))
     [demo_result (L "a.py") 1 10 (9 # 10);
      demo_result (L "a.py") 5 15 (8 # 10)].
Proof.
  apply (proj1 (deduplicate_only_drops
                  [demo_result (L "a.py") 1 10 (9 # 10);
                   demo_result (L "a.py") 5 15 (8 # 10)] (1 # 2))).
  now left.
Defined.

Lemma overlaps_kept_high thr r kept :
  (1 < thr)%Q -> overlaps_kept thr r kept = false.
Proof.
  intros H. apply overlaps_kept_false. intros k _.
  apply Qle_lt_trans with 1%Q; [| exact H].
  apply overlap_unit.
Qed.

Lemma keep_loop_high thr l kept :
  (1 < thr)%Q -> keep_loop thr l kept = kept ++ l.
Proof.
  intros H. revert kept.
  induction l as [| r l IH]; intros kept; simpl; [now rewrite app_nil_r |].
  rewrite overlaps_kept_high by exact H. rewrite IH, <- app_assoc.
  reflexivity.
Qed.

Lemma keep_loop_low thr l k kept :
  (thr <= 0)%Q -> keep_loop thr l (k :: kept) = k :: kept.
Proof.
  intros H. induction l as [| r l IH]; simpl; [reflexivity |].
  replace (Qle_bool thr (overlap_of r k)) with true; [exact IH |].
  symmetry. apply Qle_bool_iff.
  apply Qle_trans with 0%Q; [exact H |]. apply overlap_unit.
Qed.

Lemma flat_map_perm {A B} (f g : A -> list B) (l : list A) :
  (forall x, Permutation (f x) (g x)) ->
  Permutation (flat_map f l) (flat_map g l).
Proof.
  intros H. induction l as [| x l IH]; simpl; [reflexivity |].
  now apply Permutation_app.
Qed.

Lemma flat_map_singletons {A B K} (f : A -> list B) (key : B -> K)
  (fst' : A -> K) (l : list A) :
  (forall a, In a l -> exists x, f a = [x] /\ key x = fst' a) ->
  map key (flat_map f l) = map fst' l.
Proof.
  induction l as [| a l IH]; intros H; simpl; [reflexivity |].
  destruct (H a (or_introl eq_refl)) as (x & -> & Hk).
  simpl. rewrite Hk, IH; [reflexivity |].
  intros b Hb. apply H. now right.
Qed.

(** The extremes of the threshold: above 1 nothing is dropped (the output
    is the input re-sorted); at 0 or below every path keeps one result
    only. *)
Theorem deduplicate_threshold_extremes results thr :
  ((1 < thr)%Q -> Permutation (deduplicate results thr) results)
  /\ ((thr <= 0)%Q ->
      NoDup (map (fun r => path (chunk r)) (deduplicate results thr))).
Proof.
  split; intros Hthr.
  - destruct results as [| r0 results]; [reflexivity |].
    unfold deduplicate. rewrite sort_desc_perm.
    rewrite <- (group_by_file_perm (r0 :: results)) at 2.
    apply flat_map_perm. intros [p g]. unfold dedup_file. cbn [snd].
    rewrite keep_loop_high by exact Hthr. apply sort_desc_perm.
  - destruct results as [| r0 results]; [constructor |].
    unfold deduplicate.
    destruct (group_by_file_grouped (r0 :: results)) as (Hnd & Hgr & _).
    eapply Permutation_NoDup.
    + apply Permutation_map. symmetry. apply sort_desc_perm.
    + rewrite (flat_map_singletons _ (fun r => path (chunk r)) fst);
        [exact Hnd |].
      intros [p g] Hg. destruct (Hgr _ _ Hg) as [Hf Hne]. cbn [snd fst].
      destruct g as [| r g]; [congruence |].
      destruct (sort_desc_head (r :: g) r (or_introl eq_refl))
        as (x & rest & Hs & Hx & _).
      unfold dedup_file. rewrite Hs.
      cbn [keep_loop overlaps_kept existsb app].
      rewrite keep_loop_low by exact Hthr.
      exists x. split; [reflexivity |].
      rewrite Hf in Hx. apply filter_In in Hx as [_ Hx].
      now apply same_path_iff in Hx.
Qed.

Lemma deduplicate_threshold_extremes_witness :
  Permutation
    (deduplicate [demo_result (L "a.py") 1 10 (9 # 10);
                  demo_result (L "a.py") 5 15 (8 # 10)] (2 # 1))
    [demo_result (L "a.py") 1 10 (9 # 10);
     demo_result (L "a.py") 5 15 (8 # 10)]
  /\ NoDup (map (fun r => path (chunk r))
              (deduplicate [demo_result (L "a.py") 1 2 (9 # 10);
                            demo_result (L "a.py") 8 9 (8 # 10)] 0)).
Proof.
  split.
  - apply (proj1 (deduplicate_threshold_extremes _ (2 # 1))). reflexivity.
  - apply (proj2 (deduplicate_threshold_extremes _ 0)). discriminate.
Defined.

End DedupExtra.

(** ** Result enhancer: recency re-ranking and the enhancement steps *)

Module RerankFacts.

Import Models Store Enhancer StoreFacts DedupFacts DedupExtra.

Lemma py_min_le a b : (py_min a b <= a)%Q /\ (py_min a b <= b)%Q.
Proof.
  unfold py_min. destruct (Qle_bool a b) eqn:E.
  - apply Qle_bool_iff in E. split; [apply Qle_refl | exact E].
  - split; [| apply Qle_refl].
    apply Qlt_le_weak, Qnot_le_lt. intros H.
    apply Qle_bool_iff in H. congruence.
Qed.

Lemma py_max_ge a b : (a <= py_max a b)%Q /\ (b <= py_max a b)%Q.
Proof.
  unfold py_max. destruct (Qle_bool b a) eqn:E.
  - apply Qle_bool_iff in E. split; [apply Qle_refl | exact E].
  - split; [| apply Qle_refl].
    apply Qlt_le_weak, Qnot_le_lt. intros H.
    apply Qle_bool_iff in H. congruence.
Qed.

Lemma list_min_spec x l :
  In (list_min x l) (x :: l) /\
  forall y, In y (x :: l) -> (list_min x l <= y)%Q.
Proof.
  unfold list_min. revert x. induction l as [| z l IH]; intros x; simpl.
  - split; [now left |]. intros y [<- | []]. apply Qle_refl.
  - destruct (IH (py_min x z)) as [Hin Hle]. split.
    + destruct Hin as [Hin | Hin]; [| now right; right].
      rewrite <- Hin. unfold py_min. destruct (Qle_bool x z); auto.
    + intros y Hy.
      assert (Hm : (fold_left py_min l (py_min x z) <= py_min x z)%Q)
        by (apply Hle; now left).
      destruct Hy as [<- | [<- | Hy]].
      * eapply Qle_trans; [exact Hm | apply py_min_le].
      * eapply Qle_trans; [exact Hm | apply py_min_le].
      * apply Hle. now right.
Qed.

Lemma list_max_spec x l :
  In (list_max x l) (x :: l) /\
  forall y, In y (x :: l) -> (y <= list_max x l)%Q.
Proof.
  unfold list_max. revert x. induction l as [| z l IH]; intros x; simpl.
  - split; [now left |]. intros y [<- | []]. apply Qle_refl.
  - destruct (IH (py_max x z)) as [Hin Hle]. split.
    + destruct Hin as [Hin | Hin]; [| now right; right].
      rewrite <- Hin. unfold py_max. destruct (Qle_bool z x); auto.
    + intros y Hy.
      assert (Hm : (py_max x z <= fold_left py_max l (py_max x z))%Q)
        by (apply Hle; now left).
      destruct Hy as [<- | [<- | Hy]].
      * apply Qle_trans with (py_max x z); [apply py_max_ge | exact Hm].
      * apply Qle_trans with (py_max x z); [apply py_max_ge | exact Hm].
      * apply Hle. now right.
Qed.

Lemma boosted_same w r : (0 <= w)%Q -> in_unit r -> boosted w r r.
Proof.
  intros Hw [H0 H1]. unfold boosted.
  repeat split; [apply Qle_refl | exact H1 | lra].
Qed.

Lemma boost_all_ok w min_ts max_ts results :
  (0 <= w)%Q -> (0 < max_ts - min_ts)%Q ->
  Forall (fun r => in_unit r /\
                   (min_ts <= indexed_at (chunk r) <= max_ts)%Q) results ->
  exists b, boost_all w min_ts (max_ts - min_ts) results = Ok b /\
            Forall2 (boosted w) results b.
Proof.
  intros Hw Hr. induction 1 as [| r results [[H0 H1] [Hlo Hhi]] _ IH].
  - exists []. split; [reflexivity | constructor].
  - destruct IH as (b & Hb & Hf). cbn [boost_all].
    set (n := ((indexed_at (chunk r) - min_ts) / (max_ts - min_ts))%Q).
    assert (Hn0 : (0 <= n)%Q).
    { apply Qle_shift_div_l; [exact Hr | lra]. }
    assert (Hn1 : (n <= 1)%Q).
    { apply Qle_shift_div_r; [exact Hr | lra]. }
    assert (Hwn0 : (0 <= w * n)%Q) by (now apply Qmult_le_0_compat).
    assert (Hwn1 : (w * n <= w)%Q).
    { rewrite <- (Qmult_1_r w) at 2. rewrite !(Qmult_comm w).
      now apply Qmult_le_compat_r. }
    destruct (py_min_le 1 (score r + w * n)) as [Hm1 Hm2].
    assert (Hm3 : (score r <= py_min 1 (score r + w * n))%Q).
    { unfold py_min. destruct (Qle_bool 1 (score r + w * n)); lra. }
    unfold bind, SearchResult_new.
    rewrite (proj2 (score_ok_iff _)) by (split; lra).
    rewrite Hb. eexists. split; [reflexivity |].
    constructor; [| exact Hf].
    unfold boosted. cbn [chunk score]. repeat split; try assumption. lra.
Qed.

(** [rerank_by_recency] returns its input as it is when the list is
    empty, when the weight is zero, or when all timestamps are equal. *)
Theorem rerank_noop (results : list SearchResult) (w : Q) :
  results = [] \/ (w == 0)%Q
  \/ (forall a b, In a results -> In b results ->
        (indexed_at (chunk a) == indexed_at (chunk b))%Q) ->
  rerank_by_recency results w = Ok results.
Proof.
  intros H. unfold rerank_by_recency.
  destruct results as [| r0 results]; [reflexivity |]. cbn [map].
  destruct (Qeq_bool w 0) eqn:Ew; [reflexivity |].
  destruct H as [H | [H | H]]; [discriminate | | ].
  - apply Qeq_bool_iff in H. congruence.
  - set (ts := map (fun r => indexed_at (chunk r)) results).
    destruct (list_min_spec (indexed_at (chunk r0)) ts) as [Hmin _].
    destruct (list_max_spec (indexed_at (chunk r0)) ts) as [Hmax _].
    change (indexed_at (chunk r0) :: ts)
      with (map (fun r => indexed_at (chunk r)) (r0 :: results)) in Hmin, Hmax.
    apply in_map_iff in Hmin as (a & Ha & Hain).
    apply in_map_iff in Hmax as (b & Hb & Hbin).
    replace (Qeq_bool (list_max (indexed_at (chunk r0)) ts
                       - list_min (indexed_at (chunk r0)) ts) 0) with true;
      [reflexivity |].
    symmetry. apply Qeq_bool_iff. rewrite <- Ha, <- Hb.
    rewrite (H b a Hbin Hain). lra.
Qed.

Lemma rerank_sound (results : list SearchResult) (w : Q) :
  (0 <= w)%Q -> Forall in_unit results ->
  exists out,
    rerank_by_recency results w = Ok out /\
    length out = length results /\
    Permutation (map chunk out) (map chunk results) /\
    Forall in_unit out /\
    (forall r', In r' out -> exists r, In r results /\ boosted w r r') /\
    (StronglySorted desc results -> StronglySorted desc out).
Proof.
  intros Hw Hu.
  assert (Hsame : exists out, Ok results = Ok out /\
            length out = length results /\
            Permutation (map chunk out) (map chunk results) /\
            Forall in_unit out /\
            (forall r', In r' out -> exists r, In r results /\ boosted w r r') /\
            (StronglySorted desc results -> StronglySorted desc out)).
  { exists results. repeat split; auto.
    intros r' Hr'. exists r'. split; [exact Hr' |].
    apply boosted_same; [exact Hw |].
    revert r' Hr'. now apply Forall_forall. }
  unfold rerank_by_recency.
  destruct (map (fun r => indexed_at (chunk r)) results) as [| t ts] eqn:Ets;
    [exact Hsame |].
  destruct (Qeq_bool w 0); [exact Hsame |].
  destruct (Qeq_bool (list_max t ts - list_min t ts) 0) eqn:Er;
    [exact Hsame |].
  destruct (list_min_spec t ts) as [_ Hmin].
  destruct (list_max_spec t ts) as [_ Hmax].
  assert (Hpos : (0 < list_max t ts - list_min t ts)%Q).
  { assert (Hne : ~ (list_max t ts - list_min t ts == 0)%Q)
      by (intros E; apply Qeq_bool_iff in E; congruence).
    pose proof (Hmin t (or_introl eq_refl)).
    pose proof (Hmax t (or_introl eq_refl)).
    destruct (Qlt_le_dec 0 (list_max t ts - list_min t ts)) as [Hlt | Hle];
      [exact Hlt |].
    exfalso. apply Hne. lra. }
  destruct (boost_all_ok w (list_min t ts) (list_max t ts) results Hw Hpos)
    as (b & Hb & Hf).
  { apply Forall_forall. intros r Hr. split.
    - revert r Hr. now apply Forall_forall.
    - assert (Hin : In (indexed_at (chunk r)) (t :: ts))
        by (rewrite <- Ets;
            exact (in_map (fun r => indexed_at (chunk r)) results r Hr)).
      split; [now apply Hmin | now apply Hmax]. }
  rewrite Hb. cbn [bind]. exists (sort_desc b).
  split; [reflexivity |].
  assert (Hlen : length b = length results)
    by (symmetry; eapply Forall2_length, Hf).
  assert (Hchunks : map chunk b = map chunk results).
  { clear - Hf. induction Hf as [| r r' l l' [Hc _] _ IH]; [reflexivity |].
    simpl. now rewrite Hc, IH. }
  assert (Hback : forall r', In r' b -> exists r, In r results /\ boosted w r r').
  { clear - Hf. induction Hf as [| r r' l l' Hb _ IH]; [contradiction |].
    intros x [<- | Hx].
    - exists r. split; [now left | exact Hb].
    - destruct (IH x Hx) as (y & Hy & Hby). exists y. split; [now right | exact Hby]. }
  split; [now rewrite (Permutation_length (sort_desc_perm b)) |].
  split; [rewrite <- Hchunks; apply Permutation_map, sort_desc_perm |].
  split; [| split].
  - apply Forall_forall. intros r' Hr'.
    apply (Permutation_in _ (sort_desc_perm b)) in Hr'.
    destruct (Hback r' Hr') as (r & Hr & _ & Hle & H1 & _).
    pose proof (proj1 (Forall_forall _ _) Hu r Hr) as [H0 _].
    split; [lra | exact H1].
  - intros r' Hr'. apply Hback.
    eapply Permutation_in; [apply sort_desc_perm | exact Hr'].
  - intros _. apply sort_desc_sorted.
Qed.


Lemma rerank_noop_witness :
  rerank_by_recency [demo_result (L "a.py") 1 2 (9 # 10);
                     demo_result (L "b.py") 1 2 (8 # 10)] (1 # 10)
  = Ok [demo_result (L "a.py") 1 2 (9 # 10);
        demo_result (L "b.py") 1 2 (8 # 10)].
Proof.
  apply rerank_noop. right. right.
  intros a b [<- | [<- | []]] [<- | [<- | []]]; reflexivity.
Defined.


Section Pipeline.

Variable fs : str -> str -> file_state.

(** Expansion keeps the frame of a result whatever the file gives. *)
Lemma expand_one_frame before after root r :
  same_frame r (expand_one fs before after root r).
Proof.
  unfold expand_one.
  destruct (fs root (path (chunk r))); try apply ExpandFacts.same_frame_refl.
  unfold bind, CodeChunk_new, SearchResult_new.
  destruct (chunk_fields_ok _); [| apply ExpandFacts.same_frame_refl].
  destruct (score_ok _); [| apply ExpandFacts.same_frame_refl].
  repeat split.
Qed.

Lemma expand_context_frames results before after root :
  Forall2 same_frame results (expand_context fs results before after root).
Proof.
  assert (Hrefl : forall l, Forall2 same_frame l l).
  { induction l; constructor; [apply ExpandFacts.same_frame_refl | assumption]. }
  unfold expand_context. destruct results as [| r results]; [constructor |].
  destruct root as [root |]; [| apply Hrefl].
  generalize (r :: results). intros l.
  induction l; simpl; constructor; [apply expand_one_frame | assumption].
Qed.

Lemma sorted_frames l l' :
  Forall2 same_frame l l' -> StronglySorted desc l -> StronglySorted desc l'.
Proof.
  induction 1 as [| r r' l l' Hf Hall IH]; intros Hs; [constructor |].
  inversion Hs as [| ? ? Hs' Hr]; subst. constructor; [now apply IH |].
  clear - Hf Hall Hr. induction Hall as [| x x' l l' Hx _ IH];
    [constructor |].
  inversion Hr as [| ? ? Hrx Hr']; subst. constructor; [| now apply IH].
  unfold desc in *.
  destruct Hf as (_ & _ & _ & _ & _ & _ & _ & _ & Hsr).
  destruct Hx as (_ & _ & _ & _ & _ & _ & _ & _ & Hsx).
  now rewrite <- Hsr, <- Hsx.
Qed.

Lemma sorted_firstn n (l : list SearchResult) :
  StronglySorted desc l -> StronglySorted desc (firstn n l).
Proof.
  intros H. revert n. induction H as [| r l Hs IH Hr]; intros [| n]; simpl;
    try constructor; [apply IH |].
  now apply PyStrFacts.Forall_firstn.
Qed.

Lemma firstn_In_any {A} n (l : list A) x : In x (firstn n l) -> In x l.
Proof.
  revert n. induction l as [| y l IH]; intros [| n]; simpl; try tauto.
  intros [H | H]; [now left | right; eauto].
Qed.

(** The enhancement steps compose: from validated results and a
    non-negative weight and limit they return at most [limit] results, no
    more than they were given, each with a score in [0,1] and each taken
    from an input result of the same path and file hash whose score it
    does not lower; with de-duplication on, the list is sorted by
    descending score. *)
Theorem enhance_pipeline (results : list SearchResult) (should_dedup : bool)
  (thr w : Q) (limit : Z) (should_expand : bool) (before after : Z)
  (root : option str) :
  (0 <= w)%Q -> 0 <= limit -> Forall in_unit results ->
  exists out,
    enhance fs results should_dedup thr w limit should_expand before after
            root = Ok out /\
    len out <= limit /\
    (length out <= length results)%nat /\
    Forall in_unit out /\
    (should_dedup = true -> StronglySorted desc out) /\
    (forall r', In r' out ->
       exists r, In r results /\
                 path (chunk r') = path (chunk r) /\
                 file_hash (chunk r') = file_hash (chunk r) /\
                 (score r <= score r')%Q).
Proof.
  intros Hw Hlim Hu. unfold enhance.
  set (l1 := if should_dedup then deduplicate results thr else results).
  assert (H1in : forall r, In r l1 -> In r results).
  { unfold l1. destruct should_dedup; [| auto].
    intros r. apply deduplicate_sub. }
  assert (H1len : (length l1 <= length results)%nat).
  { unfold l1. destruct should_dedup; [| lia].
    apply deduplicate_shorter. }
  assert (H1s : should_dedup = true -> StronglySorted desc l1).
  { intros ->. unfold l1. destruct results; [constructor |].
    apply sort_desc_sorted. }
  assert (H1u : Forall in_unit l1).
  { apply Forall_forall. intros r Hr. apply H1in in Hr.
    revert r Hr. now apply Forall_forall. }
  destruct (rerank_sound l1 w Hw H1u)
    as (l2 & Hr & H2len & _ & H2u & H2b & H2s).
  rewrite Hr. cbn [bind].
  set (l3 := py_slice l2 0 limit).
  assert (H3 : l3 = firstn (Z.to_nat (Z.min limit (len l2))) l2).
  { unfold l3. rewrite PyStrFacts.py_slice_nonneg by lia.
    replace (Z.min 0 (len l2)) with 0 by (unfold len; lia).
    cbn [Z.to_nat skipn]. f_equal. lia. }
  assert (H3len : len l3 <= limit /\ (length l3 <= length l2)%nat).
  { rewrite H3. unfold len. rewrite length_firstn. unfold len. lia. }
  assert (H3in : forall r, In r l3 -> In r l2)
    by (rewrite H3; intros r; apply firstn_In_any).
  assert (H3s : should_dedup = true -> StronglySorted desc l3)
    by (intros E; rewrite H3; apply sorted_firstn; auto).
  set (out := if should_expand
              then expand_context fs l3 before after root else l3).
  assert (Hf : Forall2 same_frame l3 out).
  { unfold out. destruct should_expand; [apply expand_context_frames |].
    clear. induction l3; constructor;
      [apply ExpandFacts.same_frame_refl | assumption]. }
  exists out. split; [reflexivity |].
  pose proof (Forall2_length Hf) as Hlen.
  assert (Hback : forall r', In r' out ->
            exists r3, In r3 l3 /\ same_frame r3 r').
  { clear - Hf. induction Hf as [| a b l l' Hab _ IH]; [contradiction |].
    intros r' [<- | Hr'].
    - exists a. split; [now left | exact Hab].
    - destruct (IH r' Hr') as (x & Hx & Hxr). exists x.
      split; [now right | exact Hxr]. }
  split; [unfold len in *; lia |]. split; [lia |]. split; [| split].
  - apply Forall_forall. intros r' Hr'.
    destruct (Hback r' Hr') as (r3 & Hr3 & Hfr).
    destruct Hfr as (_ & _ & _ & _ & _ & _ & _ & _ & Hs).
    unfold in_unit. rewrite <- Hs.
    exact (proj1 (Forall_forall _ _) H2u r3 (H3in r3 Hr3)).
  - intros E. eapply sorted_frames; [exact Hf | auto].
  - intros r' Hr'.
    destruct (Hback r' Hr') as (r3 & Hr3 & Hfr).
    destruct Hfr as (Hp & _ & _ & _ & _ & Hh & _ & _ & Hs).
    destruct (H2b r3 (H3in r3 Hr3)) as (r & Hrin & Hc & Hle & _).
    exists r. split; [now apply H1in |].
    rewrite <- Hp, <- Hh, <- Hs, Hc. auto.
Qed.

End Pipeline.

Lemma enhance_pipeline_witness :
  exists out,
    enhance demo_fs
      [demo_result (L "test.py") 1 2 (9 # 10);
       demo_result (L "test.py") 1 3 (8 # 10)]
      true (1 # 2) (1 # 10) 1 true 3 3 (Some (L "/proj")) = Ok out
    /\ len out <= 1.
Proof.
  destruct (enhance_pipeline demo_fs
      [demo_result (L "test.py") 1 2 (9 # 10);
       demo_result (L "test.py") 1 3 (8 # 10)]
      true (1 # 2) (1 # 10) 1 true 3 3 (Some (L "/proj")))
    as (out & He & Hl & _).
  - discriminate.
  - lia.
  - repeat constructor; discriminate.
  - exists out. split; [exact He | exact Hl].
Defined.

End RerankFacts.

(** ** Paragraph fallback chunker: termination and shape *)

Module FallbackExtra.

Import Fallback PyStrFacts FallbackFacts MarkdownFacts.

Lemma lstrip_nil_iff (s : str) : lstrip s = [] <-> blank s.
Proof.
  unfold blank. induction s as [| c s IH]; simpl; [tauto |].
  destruct (is_space c); simpl; [exact IH |].
  split; discriminate.
Qed.

Lemma blank_rev (s : str) : blank (rev s) <-> blank s.
Proof.
  unfold blank. rewrite !forallb_forall.
  split; intros H c Hc; apply H; [now apply in_rev in Hc | now apply in_rev].
Qed.

Lemma blank_lstrip (s : str) : blank (lstrip s) <-> blank s.
Proof.
  unfold blank. induction s as [| c s IH]; simpl; [tauto |].
  destruct (is_space c) eqn:E; simpl; [exact IH |].
  rewrite E. tauto.
Qed.

(** [strip] leaves nothing exactly of a blank string. *)
Lemma strip_nil_iff (s : str) : strip s = [] <-> blank s.
Proof.
  unfold strip, rstrip. split.
  - intros H. apply (f_equal (@rev ascii)) in H.
    rewrite rev_involutive in H. simpl in H.
    apply (proj1 (lstrip_nil_iff _)) in H.
    apply (proj1 (blank_rev _)) in H.
    now apply (proj1 (blank_lstrip _)) in H.
  - intros H. apply (proj2 (blank_lstrip _)) in H.
    apply (proj2 (blank_rev _)) in H.
    apply (proj2 (lstrip_nil_iff _)) in H. now rewrite H.
Qed.

Lemma blank_app (a b : str) : blank (a ++ b) <-> blank a /\ blank b.
Proof. unfold blank. rewrite forallb_app, andb_true_iff. tauto. Qed.

Lemma starts_with_split (p s : str) :
  starts_with p s = true -> s = p ++ skipn (length p) s.
Proof.
  revert s. induction p as [| a p IH]; intros s H; [reflexivity |].
  destruct s as [| b s]; [discriminate |]. simpl in H.
  apply andb_true_iff in H as [Hab H].
  apply Ascii.eqb_eq in Hab. subst. simpl. f_equal. now apply IH.
Qed.

Lemma split_aux_skip (sep t s cur : str) :
  split_aux sep (t ++ s) (length t) cur = split_aux sep s 0 cur.
Proof.
  induction t as [| a t IH]; [reflexivity |]. simpl. exact IH.
Qed.

(** [sep.join(s.split(sep)) == s] for a non-empty separator. *)
Lemma join_split_general (sep : str) :
  sep <> [] ->
  forall n s cur, (length s <= n)%nat ->
    join sep (split_aux sep s 0 cur) = rev cur ++ s.
Proof.
  intros Hsep. induction n as [| n IH]; intros s cur Hn.
  - destruct s; [| simpl in Hn; lia]. simpl. now rewrite app_nil_r.
  - destruct s as [| c s]; [simpl; now rewrite app_nil_r |].
    cbn [split_aux].
    destruct (starts_with sep (c :: s)) eqn:Hp.
    + apply starts_with_split in Hp.
      destruct sep as [| a sep']; [congruence |].
      simpl in Hp. injection Hp as -> Hs.
      cbn [length Nat.sub]. rewrite Nat.sub_0_r.
      rewrite Hs at 1. rewrite split_aux_skip.
      rewrite join_cons by apply split_aux_nonempty.
      rewrite IH.
      * simpl. rewrite Hs at 2. reflexivity.
      * simpl in Hn. rewrite length_skipn. lia.
    + rewrite IH by (simpl in Hn; lia). simpl. now rewrite <- app_assoc.
Qed.

Lemma join_split_on (sep s : str) :
  sep <> [] -> join sep (split_on sep s) = s.
Proof.
  intros H. unfold split_on.
  now rewrite (join_split_general sep H (length s) s []).
Qed.

Lemma blank_join (sep : str) (ps : list str) :
  blank sep -> (blank (join sep ps) <-> Forall blank ps).
Proof.
  intros Hsep. induction ps as [| p ps IH]; [split; [constructor | reflexivity] |].
  destruct ps as [| p2 ps].
  - simpl. split; [intros H; now constructor | now inversion 1].
  - change (join sep (p :: p2 :: ps)) with (p ++ sep ++ join sep (p2 :: ps)).
    rewrite !blank_app, IH. split.
    + intros (Hp & _ & Hps). now constructor.
    + inversion 1; subst. tauto.
Qed.

(** Content has no paragraph exactly when it is blank: the [block] branch
    of [chunk], taken when no paragraph is found, is never reached. *)
Lemma paragraphs_nil_iff (content : str) :
  _split_into_paragraphs content = [] <-> blank content.
Proof.
  unfold _split_into_paragraphs.
  rewrite <- (join_split_on [NL; NL] content) at 2 by discriminate.
  rewrite (blank_join [NL; NL]) by reflexivity.
  generalize (split_on [NL; NL] content). intros ps.
  induction ps as [| p ps IH]; [split; [constructor | reflexivity] |].
  cbn [filter]. destruct (truthy (strip p)) eqn:E.
  - split; [discriminate |]. inversion 1; subst.
    apply strip_nil_iff in H2. rewrite H2 in E. discriminate.
  - rewrite IH. split; [| now inversion 1].
    intros H. constructor; [| exact H].
    apply strip_nil_iff. now destruct (strip p).
Qed.

Lemma split_ws_aux_nonempty (s cur : str) :
  cur <> [] \/ ~ blank s -> split_ws_aux s cur <> [].
Proof.
  revert cur. induction s as [| c s IH]; intros cur H; simpl.
  - destruct cur; [| discriminate].
    destruct H as [H | H]; [congruence | exfalso; now apply H].
  - destruct (is_space c) eqn:E.
    + destruct cur; [| discriminate].
      apply IH. right. destruct H as [H | H]; [congruence |].
      intros Hb. apply H. unfold blank. simpl. now rewrite E.
    + apply IH. left. discriminate.
Qed.

(** A non-blank string has at least one word. *)
Lemma split_ws_nonempty (s : str) : ~ blank s -> split_ws s <> [].
Proof. intros H. apply split_ws_aux_nonempty. now right. Qed.

Lemma count_char_nonneg c s : 0 <= count_char c s.
Proof.
  induction s as [| a s IH]; simpl; [lia |].
  destruct (Ascii.eqb a c); lia.
Qed.

Section Chunker.

Variables max_chunk_size chunk_overlap : Z.

(** With [chunk_overlap >= max_chunk_size] the word index never advances:
    the loop has no result, whatever the fuel. *)
Lemma split_loop_diverges fuel words i line :
  max_chunk_size <= chunk_overlap -> i < len words ->
  split_loop max_chunk_size chunk_overlap fuel words i line = None.
Proof.
  intros Hstep. revert i line.
  induction fuel as [| fuel IH]; intros i line Hi; simpl;
    destruct (Z.ltb_spec i (len words)); try lia; [reflexivity |].
  rewrite IH by lia. reflexivity.
Qed.

Lemma split_loop_shape fuel words i line chunks :
  1 <= line ->
  split_loop max_chunk_size chunk_overlap fuel words i line = Some chunks ->
  Forall paragraph_chunk chunks /\ (i < len words -> chunks <> []).
Proof.
  revert i line chunks.
  induction fuel as [| fuel IH]; intros i line chunks Hl; simpl;
    destruct (Z.ltb_spec i (len words)) as [Hi | Hi]; try discriminate;
    try (intros [= <-]; split; [constructor | lia]).
  destruct (split_loop _ _ fuel words _ _) as [rest |] eqn:Hr;
    [| discriminate].
  intros [= <-].
  pose proof (count_char_nonneg NL
                (join [SP] (py_slice words i (i + max_chunk_size)))) as Hc.
  apply IH in Hr as [Hr _]; [| lia].
  split; [| discriminate].
  constructor; [| exact Hr].
  unfold paragraph_chunk. cbn [snd chunk_type name start_line end_line].
  repeat split; try reflexivity; lia.
Qed.

Lemma chunk_paragraphs_shape fuel ps line :
  chunk_overlap < max_chunk_size -> 1 <= line ->
  Forall (fun p => ~ blank p /\ (length (split_ws p) <= fuel)%nat) ps ->
  exists chunks,
    chunk_paragraphs max_chunk_size chunk_overlap fuel ps line = Some chunks /\
    Forall paragraph_chunk chunks /\ (ps <> [] -> chunks <> []).
Proof.
  intros Hstep Hl H. revert line Hl.
  induction H as [| p ps [Hnb Hfuel] _ IH]; intros line Hl.
  - exists []. repeat split; [constructor | congruence].
  - cbn [chunk_paragraphs].
    assert (Hne : strip p <> []) by (now rewrite strip_nil_iff).
    rewrite (truthy_true _ Hne). cbn [negb].
    pose proof (count_char_nonneg NL p) as Hc.
    destruct (IH (line + (count_char NL p + 1)) ltac:(lia))
      as (more & Hm & Hms & _).
    rewrite Hm.
    destruct (Z.leb_spec (len (split_ws p)) max_chunk_size) as [Hw | Hw].
    + eexists. split; [reflexivity |]. split; [| discriminate].
      constructor; [| exact Hms].
      unfold paragraph_chunk. cbn [snd chunk_type name start_line end_line].
      repeat split; try reflexivity; lia.
    + unfold _split_large_paragraph.
      destruct (split_loop_returns max_chunk_size chunk_overlap
                  ltac:(lia) fuel (split_ws p) 0 line) as [cs Hcs].
      { unfold len. lia. }
      rewrite Hcs.
      destruct (split_loop_shape _ _ _ _ _ Hl Hcs) as [Hshape Hnon].
      eexists. split; [reflexivity |]. split.
      * apply Forall_app. now split.
      * intros _ E. apply app_eq_nil in E as [E _].
        apply Hnon; [| exact E].
        pose proof (split_ws_nonempty p Hnb).
        unfold len. destruct (split_ws p); [congruence | simpl; lia].
Qed.

(** With [chunk_overlap < max_chunk_size] and fuel for the longest
    paragraph, [chunk] returns; blank content gives no chunk, any other
    content at least one; every chunk is typed [paragraph], has no name,
    and [1 <= start_line <= end_line] (a [block] chunk is never made). *)
Theorem fallback_chunk_total (fuel : nat) (content : str) :
  chunk_overlap < max_chunk_size ->
  Forall (fun p => (length (split_ws p) <= fuel)%nat)
         (_split_into_paragraphs content) ->
  exists chunks,
    chunk max_chunk_size chunk_overlap fuel content = Some chunks /\
    Forall paragraph_chunk chunks /\
    (chunks = [] <-> blank content).
Proof.
  intros Hstep Hfuel. unfold chunk.
  destruct (strip content) as [| c0 s0] eqn:Es.
  - exists []. cbn. repeat split; [constructor |].
    intros _. now apply strip_nil_iff.
  - cbn [truthy negb].
    assert (Hnb : ~ blank content)
      by (rewrite <- strip_nil_iff, Es; discriminate).
    assert (Hps : _split_into_paragraphs content <> [])
      by (now rewrite paragraphs_nil_iff).
    destruct (chunk_paragraphs_shape fuel (_split_into_paragraphs content) 1
                Hstep ltac:(lia)) as (chunks & Hc & Hshape & Hnon).
    { apply Forall_forall. intros p Hp. split.
      - unfold _split_into_paragraphs in Hp.
        apply in_map_iff in Hp as (x & <- & Hx).
        apply filter_In in Hx as [_ Hx].
        rewrite <- strip_nil_iff, strip_idem.
        now destruct (strip x).
      - revert p Hp. now apply Forall_forall. }
    destruct (_split_into_paragraphs content) as [| p ps] eqn:Ep;
      [congruence |].
    exists chunks. split; [exact Hc |]. split; [exact Hshape |].
    split; [| tauto].
    intros E. exfalso. apply Hnon; [discriminate | exact E].
Qed.

(** With [chunk_overlap >= max_chunk_size], the splitting loop does not
    terminate on a paragraph of more than [max_chunk_size] words: neither
    [_split_large_paragraph] nor [chunk] on content holding such a
    paragraph has a result, whatever the fuel. *)
Theorem fallback_overlap_diverges (fuel : nat) (content p : str) :
  max_chunk_size <= chunk_overlap ->
  In p (_split_into_paragraphs content) ->
  max_chunk_size < len (split_ws p) ->
  _split_large_paragraph max_chunk_size chunk_overlap fuel p 1 = None /\
  chunk max_chunk_size chunk_overlap fuel content = None.
Proof.
  intros Hstep Hin Hlarge.
  assert (Hp : ~ blank p).
  { unfold _split_into_paragraphs in Hin.
    apply in_map_iff in Hin as (x & <- & Hx).
    apply filter_In in Hx as [_ Hx].
    rewrite <- strip_nil_iff, strip_idem. now destruct (strip x). }
  assert (Hwords : 0 < len (split_ws p)).
  { pose proof (split_ws_nonempty p Hp). unfold len.
    destruct (split_ws p); [congruence | simpl; lia]. }
  assert (Hloop : forall line,
            _split_large_paragraph max_chunk_size chunk_overlap fuel p line
            = None).
  { intros line. unfold _split_large_paragraph.
    now apply split_loop_diverges. }
  split; [apply Hloop |].
  unfold chunk.
  assert (Hnb : ~ blank content).
  { rewrite <- paragraphs_nil_iff. intros E. now rewrite E in Hin. }
  destruct (strip content) as [| c0 s0] eqn:Es.
  { exfalso. apply Hnb. now apply strip_nil_iff. }
  cbn [truthy negb].
  assert (Hgen : forall ps line, In p ps ->
            chunk_paragraphs max_chunk_size chunk_overlap fuel ps line = None).
  { induction ps as [| q ps IH]; intros line Hq; [contradiction |].
    cbn [chunk_paragraphs].
    destruct (negb (truthy (strip q))) eqn:Eq.
    - destruct Hq as [-> | Hq]; [| now apply IH].
      exfalso. apply Hp, strip_nil_iff.
      destruct (strip p); [reflexivity | discriminate].
    - destruct Hq as [-> | Hq].
      + destruct (Z.leb_spec (len (split_ws p)) max_chunk_size); [lia |].
        now rewrite Hloop.
      + rewrite (IH _ Hq). now destruct (if _ <=? _ then _ else _). }
  destruct (_split_into_paragraphs content) as [| q ps] eqn:Ep;
    [contradiction |].
  now apply Hgen.
Qed.

End Chunker.

Lemma fallback_chunk_total_witness :
  exists chunks,
    chunk 3 1 7 (L "a b c d e f g") = Some chunks
    /\ Forall paragraph_chunk chunks.
Proof.
  destruct (fallback_chunk_total 3 1 7 (L "a b c d e f g"))
    as (chunks & Hc & Hs & _).
  - lia.
  - repeat constructor.
  - exists chunks. split; [exact Hc | exact Hs].
Defined.

Lemma fallback_overlap_diverges_witness :
  chunk 2 2 1000 (L "a b c") = None.
Proof.
  apply (proj2 (fallback_overlap_diverges 2 2 1000 (L "a b c") (L "a b c")
                  ltac:(lia) ltac:(now left) ltac:(vm_compute; reflexivity))).
Defined.

End FallbackExtra.

(** ** Header-based markdown chunker: coverage and header lines *)

Module MarkdownExtra.

Import Fallback Markdown PyStrFacts FallbackFacts MarkdownFacts FallbackExtra.

Lemma join_app (sep : str) (l1 l2 : list str) :
  l1 <> [] -> l2 <> [] ->
  join sep (l1 ++ l2) = join sep l1 ++ sep ++ join sep l2.
Proof.
  intros H1 H2. induction l1 as [| x l1 IH]; [congruence |].
  destruct l1 as [| y l1].
  - simpl app. now rewrite join_cons.
  - change ((x :: y :: l1) ++ l2) with (x :: (y :: l1) ++ l2).
    rewrite join_cons by discriminate.
    rewrite IH by discriminate.
    rewrite (join_cons sep x (y :: l1)) by discriminate.
    now rewrite <- !app_assoc.
Qed.

Lemma join_concat (sep : str) (gs : list (list str)) :
  Forall (fun g => g <> []) gs ->
  join sep (map (join sep) gs) = join sep (concat gs).
Proof.
  induction 1 as [| g gs Hg Hgs IH]; [reflexivity |].
  destruct gs as [| g2 gs].
  - simpl. now rewrite app_nil_r.
  - cbn [map concat]. rewrite join_cons by discriminate.
    cbn [map concat] in IH. rewrite IH.
    rewrite (join_app sep g (g2 ++ concat gs)); [reflexivity | exact Hg |].
    inversion Hgs; subst. destruct g2; [congruence | discriminate].
Qed.

Lemma tiles_snoc from cs mid c to :
  tiles from cs mid ->
  start_line (snd c) = mid + 1 -> mid + 1 <= end_line (snd c) ->
  end_line (snd c) = to ->
  tiles from (cs ++ [c]) to.
Proof.
  revert from. induction cs as [| x cs IH]; intros from; simpl.
  - intros -> Hs He <-. repeat split; lia.
  - intros (H1 & H2 & H3) Hs He Ht. repeat split; auto.
Qed.

Lemma len_app {A} (l1 l2 : list A) : len (l1 ++ l2) = len l1 + len l2.
Proof. unfold len. rewrite length_app. lia. Qed.

Lemma scan_inv_step pre line s :
  scan_inv pre s ->
  scan_inv (pre ++ [line]) (scan_step (1 + len pre) line s).
Proof.
  intros (groups & Htext & Hne & Hcat & Htile & Hstart & Hsec & Hcur).
  unfold scan_step. destruct (header_match line) as [g2 |].
  - destruct (current_chunk s) as [| l0 cur] eqn:Ec; cbn [non_empty].
    + exists groups. cbn [chunks current_chunk current_start].
      rewrite app_nil_r in Hcat. subst pre.
      repeat split; auto; try discriminate.
      replace (1 + len (concat groups) - 1) with (current_start s - 1) by lia.
      exact Htile.
    + exists (groups ++ [l0 :: cur]).
      cbn [chunks current_chunk current_start].
      assert (Hlen : len pre = len (concat groups) + len (l0 :: cur))
        by (rewrite <- Hcat; apply len_app).
      assert (Hpos : 1 <= len (l0 :: cur))
        by (unfold len; cbn [length]; lia).
      split; [| split; [| split; [| split; [| split; [| split]]]]].
      * rewrite !map_app. f_equal. exact Htext.
      * apply Forall_app. split; [exact Hne |]. repeat constructor.
        discriminate.
      * rewrite concat_app. cbn [concat]. rewrite app_nil_r. now rewrite Hcat.
      * apply tiles_snoc with (mid := current_start s - 1);
          cbn [snd _make_chunk start_line end_line]; try lia. exact Htile.
      * rewrite concat_app. cbn [concat]. rewrite app_nil_r, Hcat. reflexivity.
      * apply Forall_app. split; [exact Hsec |]. repeat constructor.
      * discriminate.
  - exists groups. cbn [chunks current_chunk current_start].
    rewrite app_assoc, Hcat. repeat split; auto.
    intros _ E. apply app_eq_nil in E as [_ E]. discriminate.
Qed.

Lemma scan_inv_run lines pre s :
  scan_inv pre s ->
  scan_inv (pre ++ lines) (scan lines (1 + len pre) s).
Proof.
  revert pre s. induction lines as [| l lines IH]; intros pre s H;
    cbn [scan].
  - now rewrite app_nil_r.
  - replace (pre ++ l :: lines) with ((pre ++ [l]) ++ lines)
      by (now rewrite <- app_assoc).
    replace (1 + len pre + 1) with (1 + len (pre ++ [l]))
      by (rewrite len_app; unfold len at 2; cbn [length]; lia).
    apply IH. now apply scan_inv_step.
Qed.

(** The markdown chunks tile the file: for non-blank content every chunk
    is typed [section], the line ranges run from 1 to the last line with
    no gap and no overlap, and the chunk texts joined by newlines are the
    content again. *)
Theorem markdown_chunks_tile (content : str) :
  ~ blank content ->
  Forall section_chunk (chunk content) /\
  tiles 1 (chunk content) (len (split_on [NL] content)) /\
  join [NL] (map fst (chunk content)) = content.
Proof.
  intros Hnb. unfold chunk.
  assert (Hs : strip content <> []) by (now rewrite strip_nil_iff).
  rewrite (truthy_true _ Hs). cbn [negb].
  set (lines := split_on [NL] content).
  assert (Hlines : lines <> []) by apply split_aux_nonempty.
  destruct (scan_inv_run lines [] (mkScan [] [] 1 None))
    as (groups & Htext & Hne & Hcat & Htile & Hstart & Hsec & Hcur).
  { exists []. cbn. repeat split; auto; constructor. }
  cbn [app] in *. change (1 + len (@nil str)) with 1 in *.
  destruct (scan lines 1 (mkScan [] [] 1 None)) as [cs cur st hn].
  cbn [chunks current_chunk current_start header_name] in *.
  destruct cur as [| l0 cur]; [now exfalso; apply Hcur |].
  cbn [non_empty].
  assert (Hfinal : cs ++ [_make_chunk (l0 :: cur) st (len lines) hn] <> [])
    by (intros E; apply app_eq_nil in E as [_ E]; discriminate).
  destruct (cs ++ [_make_chunk (l0 :: cur) st (len lines) hn])
    as [| c0 rest] eqn:E; [congruence |]. rewrite <- E. clear E c0 rest Hfinal.
  split; [| split].
  - apply Forall_app. split; [exact Hsec |]. repeat constructor.
  - apply tiles_snoc with (mid := st - 1);
      cbn [snd _make_chunk start_line end_line]; try lia; [exact Htile |].
    rewrite <- Hcat, len_app. unfold len at 2. cbn [length]. lia.
  - replace (map fst (cs ++ [_make_chunk (l0 :: cur) st (len lines) hn]))
      with (map (join [NL]) (groups ++ [l0 :: cur]))
      by (rewrite !map_app; f_equal; symmetry; exact Htext).
    rewrite join_concat.
    + rewrite concat_app. cbn [concat]. rewrite app_nil_r, Hcat.
      apply join_split_lines.
    + apply Forall_app. split; [exact Hne |]. repeat constructor. discriminate.
Qed.

Lemma markdown_chunks_tile_witness :
  join [NL] (map fst (chunk (L "intro
# A
x"))) = L "intro
# A
x".
Proof.
  apply (proj2 (proj2 (markdown_chunks_tile (L "intro
# A
x") ltac:(discriminate)))).
Defined.

Lemma take_while_hashes k c rest :
  c <> HASH ->
  take_while (Ascii.eqb HASH) (repeat HASH k ++ c :: rest) = repeat HASH k /\
  drop_while (Ascii.eqb HASH) (repeat HASH k ++ c :: rest) = c :: rest.
Proof.
  intros Hc. induction k as [| k [IH1 IH2]];
    cbn [repeat app take_while drop_while].
  - destruct (Ascii.eqb_spec HASH c); [congruence | auto].
  - rewrite Ascii.eqb_refl, IH1, IH2. auto.
Qed.

(** Which lines are headers: one to six hashes, whitespace, then text. A
    line of [k] hashes, a space and a text that starts with a
    non-whitespace character is a header exactly when [1 <= k <= 6], and
    its captured text is that text; hashes followed directly by another
    character are no header, nor is a line that does not start with a
    hash. *)
Theorem header_match_atx (k : nat) (c : ascii) (t : str) :
  is_space c = false ->
  header_match (repeat HASH k ++ SP :: c :: t)
  = (if ((1 <=? k)%nat && (k <=? 6)%nat)%bool then Some (c :: t) else None)
  /\ (c <> HASH -> header_match (repeat HASH k ++ c :: t) = None).
Proof.
  intros Hc. split.
  - unfold header_match.
    destruct (take_while_hashes k SP (c :: t)) as [-> ->]; [discriminate |].
    rewrite repeat_length.
    destruct ((1 <=? k)%nat && (k <=? 6)%nat)%bool; [| reflexivity].
    cbn [take_while drop_while]. rewrite is_space_SP. cbn [take_while drop_while].
    now rewrite Hc.
  - intros Hh. unfold header_match.
    destruct (take_while_hashes k c t Hh) as [-> ->].
    rewrite repeat_length.
    destruct ((1 <=? k)%nat && (k <=? 6)%nat)%bool; [| reflexivity].
    cbn [take_while drop_while]. now rewrite Hc.
Qed.

Lemma header_match_atx_witness :
  header_match (L "### Title") = Some (L "Title")
  /\ header_match (L "#word") = None.
Proof.
  split.
  - apply (proj1 (header_match_atx 3 "T"%char (L "itle") eq_refl)).
  - apply (proj2 (header_match_atx 1 "w"%char (L "ord") eq_refl)).
    discriminate.
Defined.

End MarkdownExtra.

(** ** Cleanup, the embedding queue and repeated indexing *)

Module IndexerExtra.

Import PyStr Models Store Indexer StoreFacts IndexerFacts StoreExtra.

















(** *** The embedding queue *)

Lemma combine_fst_firstn {A B} (l : list A) (l' : list B) :
  map fst (combine l l') = firstn (length (combine l l')) l.
Proof.
  revert l'. induction l as [| x l IH]; intros [| y l']; simpl;
    try reflexivity.
  now rewrite IH.
Qed.

Section Queue.

Variable embed_batch : list str -> option (list (list Q)).
Variable current_branch : option str.
Variable now : Q.
Variable embedding_batch_size : Z.

Lemma build_queued_spec pairs chunks :
  build_queued current_branch now pairs = Ok chunks ->
  Forall2 stored_as (map fst pairs) chunks /\
  Forall (fun c => branch c = current_branch) chunks.
Proof.
  revert chunks. induction pairs as [| [item emb] pairs IH]; intros chunks;
    cbn [build_queued map fst].
  - intros [= <-]. split; constructor.
  - unfold bind.
    destruct (CodeChunk_new _) as [c |] eqn:Ec; [| discriminate].
    destruct (build_queued _ _ pairs) as [cs |]; [| discriminate].
    intros [= <-]. apply CodeChunk_new_ok in Ec as [-> _].
    destruct (IH cs eq_refl) as [H1 H2].
    split; constructor; try assumption; [| reflexivity].
    unfold stored_as. cbn. tauto.
Qed.

Lemma build_queued_err pairs e :
  build_queued current_branch now pairs = Err e -> e = ValidationError.
Proof.
  induction pairs as [| [item emb] pairs IH]; cbn [build_queued];
    [discriminate |].
  unfold bind, CodeChunk_new.
  destruct (chunk_fields_ok _); [| now intros [= <-]].
  destruct (build_queued _ _ pairs) as [cs |]; [discriminate |].
  intros [= <-]. now apply IH.
Qed.

Lemma flush_empties_queue (s : IndexerState) :
  _embedding_queue (fst (_flush_embedding_queue embed_batch current_branch
                                                now s)) = [].
Proof.
  unfold _flush_embedding_queue.
  destruct (_embedding_queue s) as [| item queue] eqn:Eq; [exact Eq |].
  destruct (embed_batch _); [| reflexivity].
  now destruct (build_queued _ _ _).
Qed.

(** A flush always leaves the queue empty. When the embedding call fails
    the store is left as it was and 0 is returned, so the queued chunks
    are dropped. When a count is returned, that many chunks were appended
    to the table, one for each entry of a prefix of the queue, with the
    entry's text, path, hash, language and lines, and the branch of the
    run. The only exception that escapes is the validation error of a
    chunk, and then the store is left as it was. *)
Theorem flush_embedding_queue_spec (s : IndexerState) :
  _embedding_queue (fst (_flush_embedding_queue embed_batch current_branch
                                                now s)) = []
  /\ (embed_batch (map q_text (_embedding_queue s)) = None ->
        store (fst (_flush_embedding_queue embed_batch current_branch now s))
        = store s /\
        snd (_flush_embedding_queue embed_batch current_branch now s) = Ok 0)
  /\ (forall n,
        snd (_flush_embedding_queue embed_batch current_branch now s) = Ok n ->
        exists chunks,
          table (store (fst (_flush_embedding_queue embed_batch current_branch
                                                    now s)))
          = table (store s) ++ chunks /\
          n = len chunks /\
          Forall2 stored_as
                  (firstn (length chunks) (_embedding_queue s)) chunks /\
          Forall (fun c => branch c = current_branch) chunks)
  /\ (forall e,
        snd (_flush_embedding_queue embed_batch current_branch now s) = Err e ->
        e = ValidationError /\
        store (fst (_flush_embedding_queue embed_batch current_branch now s))
        = store s).
Proof.
  unfold _flush_embedding_queue.
  destruct (_embedding_queue s) as [| item queue] eqn:Eq.
  { cbn [fst snd]. split; [exact Eq |]. split; [now split |].
    split; [| discriminate].
    intros n [= <-]. exists []. rewrite app_nil_r.
    repeat split; constructor. }
  destruct (embed_batch (map q_text (item :: queue))) as [embeddings |].
  2: { cbn [fst snd _embedding_queue store]. split; [reflexivity |].
       split; [now split |]. split; [| discriminate].
       intros n [= <-]. exists []. rewrite app_nil_r.
       repeat split; constructor. }
  destruct (build_queued _ _ (combine (item :: queue) embeddings))
    as [chunks | e] eqn:Eb; cbn [fst snd _embedding_queue store].
  - split; [reflexivity |]. split; [discriminate |]. split; [| discriminate].
    intros n [= <-]. exists chunks. rewrite add_chunks_table.
    apply build_queued_spec in Eb as [H1 H2].
    rewrite combine_fst_firstn in H1.
    pose proof (Forall2_length H1) as Hl.
    assert (Hlen : length (firstn (length (combine (item :: queue) embeddings))
                                  (item :: queue))
                   = length (combine (item :: queue) embeddings)).
    { rewrite length_firstn, length_combine. lia. }
    rewrite Hlen in Hl. rewrite <- Hl.
    repeat split; assumption.
  - split; [reflexivity |]. split; [discriminate |]. split; [discriminate |].
    intros e' [= <-]. split; [eapply build_queued_err, Eb | reflexivity].
Qed.

(** While the queue is shorter than the batch size before a chunk is
    queued, it is so afterwards: below the size the chunk is appended and
    nothing else happens, and on reaching the size the queue is flushed
    and left empty. *)
Theorem batch_queue_bound (s : IndexerState) (item : QueueItem) :
  len (_embedding_queue s) < embedding_batch_size ->
  len (_embedding_queue
         (fst (_batch_embed_and_store embed_batch current_branch now
                                      embedding_batch_size s item)))
  < embedding_batch_size
  /\ (len (_embedding_queue s) + 1 < embedding_batch_size ->
        _batch_embed_and_store embed_batch current_branch now
                               embedding_batch_size s item
        = (mkIndexer (store s) (_embedding_queue s ++ [item]), Ok tt))
  /\ (len (_embedding_queue s) + 1 = embedding_batch_size ->
        _embedding_queue
          (fst (_batch_embed_and_store embed_batch current_branch now
                                       embedding_batch_size s item)) = []).
Proof.
  intros Hlt. unfold _batch_embed_and_store. cbn [_embedding_queue].
  assert (Hl : len (_embedding_queue s ++ [item])
               = len (_embedding_queue s) + 1).
  { unfold len. rewrite length_app. cbn [length]. lia. }
  assert (H0 : 0 <= len (_embedding_queue s)) by (unfold len; lia).
  rewrite Hl.
  destruct (len (_embedding_queue s) + 1 >=? embedding_batch_size) eqn:E;
    rewrite Z.geb_leb in E;
    [apply Z.leb_le in E | apply Z.leb_gt in E].
  - pose proof (flush_empties_queue
                  (mkIndexer (store s) (_embedding_queue s ++ [item])))
      as Hq.
    destruct (_flush_embedding_queue _ _ _ _) as [s2 r].
    cbn [fst] in *. rewrite Hq. unfold len in *. cbn [length].
    split; [lia |]. split; [lia | reflexivity].
  - cbn [fst _embedding_queue]. rewrite Hl.
    split; [lia |]. split; [reflexivity | lia].
Qed.

End Queue.

Lemma flush_embedding_queue_spec_witness :
  store (fst (_flush_embedding_queue (fun _ => None) None 0%Q
                (mkIndexer (new_store [])
                   [mkItem (L "x") (Fallback.mkMeta 1 1 (L "block") None)
                           (L "a.py") (L "h1") (L "python")])))
  = new_store [] /\
  snd (_flush_embedding_queue (fun _ => None) None 0%Q
         (mkIndexer (new_store [])
            [mkItem (L "x") (Fallback.mkMeta 1 1 (L "block") None)
                    (L "a.py") (L "h1") (L "python")]))
  = Ok 0.
Proof.
  apply (proj1 (proj2 (flush_embedding_queue_spec (fun _ => None) None 0%Q
           (mkIndexer (new_store [])
              [mkItem (L "x") (Fallback.mkMeta 1 1 (L "block") None)
                      (L "a.py") (L "h1") (L "python")])))).
  reflexivity.
Defined.

Lemma batch_queue_bound_witness :
  len (_embedding_queue
         (fst (_batch_embed_and_store
                 (fun texts => Some (map (fun _ => repeat 0%Q 384) texts))
                 None 0%Q 1 (mkIndexer (new_store []) [])
                 (mkItem (L "x") (Fallback.mkMeta 1 1 (L "block") None)
                         (L "a.py") (L "h1") (L "python"))))) < 1.
Proof.
  apply (proj1 (batch_queue_bound
                  (fun texts => Some (map (fun _ => repeat 0%Q 384) texts))
                  None 0%Q 1 (mkIndexer (new_store []) [])
                  (mkItem (L "x") (Fallback.mkMeta 1 1 (L "block") None)
                          (L "a.py") (L "h1") (L "python"))
                  eq_refl)).
Defined.

(** *** Indexing a file, and a serial pass *)

Section Run.

Variable detect_language : str -> str.
Variable chunk_with : str -> str -> list Fallback.chunk_data.
Variable embed_batch : list str -> option (list (list Q)).
Variable current_branch : option str.








End Run.


End IndexerExtra.
